(** * bigstream.features: neighbourhood extraction, pairwise correlation
      and distance-gated matching

    A shallow embedding of [src/bigstream/features.py].

    - [match_points] is embedded over the rationals [Q]: it only adds,
      compares and selects a score matrix it is given, and every literal
      of the examples (0.9, 0.95, 0.5, ...) is a rational.
    - [get_contexts] is embedded over nested lists with Python's slice
      semantics written out.
    - [pairwise_correlation] is embedded over binary64, the primitive
      floats of the kernel: [astype(np.float64)] makes every operation of
      the function an IEEE 754 double operation.
    - Python exceptions are the [Raise] results of a small error monad. *)

From Stdlib Require Import List Sorted Bool Arith ZArith QArith Lia Lra Lqa.
From Stdlib Require Import Floats Uint63.
Import ListNotations.

(** ** Python exceptions as an error monad *)

Inductive exn : Type :=
| ValueError                              (* zero-size reduction, tree dimensionality *)
| IndexError                              (* index out of bounds, mask of the wrong length *)
| InhomogeneousShape (detected : list nat)  (* ValueError of np.array on a ragged list *)
| AxisError (shape : list nat)            (* np.mean(axis=1) on a 1-d array, via _stats *)
| MatmulMismatch (k1 k2 : nat).           (* ValueError of np.matmul: core dimensions *)

Inductive result (A : Type) : Type :=
| Ok (a : A)
| Raise (e : exn).

Arguments Ok {A} a.
Arguments Raise {A} e.

Definition bind {A B : Type} (m : result A) (k : A -> result B) : result B :=
  match m with
  | Ok a => k a
  | Raise e => Raise e
  end.

Notation "x <- m ;; k" := (bind m (fun x => k))
  (at level 61, m at next level, right associativity).

Fixpoint mapM {A B : Type} (f : A -> result B) (l : list A) : result (list B) :=
  match l with
  | [] => Ok []
  | a :: t => b <- f a ;; bs <- mapM f t ;; Ok (b :: bs)
  end.

(** ** match_points *)

Module Matching.

Open Scope Q_scope.

(** A row of [a_pos] / [b_pos]: the coordinates, possibly followed by more
    columns (blob_detection appends the intensity). *)
Definition point := list Q.

(** A 2-d array is the list of its rows. *)
Definition matrix := list (list Q).

Definition Qltb (x y : Q) : bool := negb (Qle_bool y x).

(** [np.max(scores)]: the maximum over all entries; numpy raises
    ValueError on a zero-size array. *)
Definition Qmaxb (x y : Q) : Q := if Qle_bool x y then y else x.

Definition np_max (scores : matrix) : result Q :=
  match concat scores with
  | [] => Raise ValueError
  | x :: t => Ok (fold_left Qmaxb t x)
  end.

(** [np.argmax] of one row: the index of the first occurrence of the
    maximum; ValueError on an empty row. *)
Fixpoint argmax_from (i best_i : nat) (best : Q) (l : list Q) : nat :=
  match l with
  | [] => best_i
  | x :: t =>
      if Qltb best x then argmax_from (S i) i x t
      else argmax_from (S i) best_i best t
  end.

Definition argmax (row : list Q) : result nat :=
  match row with
  | [] => Raise ValueError
  | x :: t => Ok (argmax_from 1 0 x t)
  end.

(** [cKDTree(a_pos).query_ball_tree(cKDTree(b_pos), r)]: for every row of
    [a_pos] the indices of the rows of [b_pos] at Euclidean distance at
    most [r].  The distance is taken over all columns of the rows; scipy
    compares its square with [r * r], so that a negative [r] counts as
    [- r].  scipy raises ValueError when the two trees differ in
    dimensionality. *)
Fixpoint sqdist (a b : point) : Q :=
  match a, b with
  | x :: a', y :: b' => (x - y) * (x - y) + sqdist a' b'
  | _, _ => 0
  end.

Definition within (r : Q) (a b : point) : bool :=
  Qle_bool (sqdist a b) (r * r).

Fixpoint ball_from (j : nat) (r : Q) (a : point) (b_pos : list point) : list nat :=
  match b_pos with
  | [] => []
  | b :: t => if within r a b then j :: ball_from (S j) r a t
              else ball_from (S j) r a t
  end.

Definition same_dim (a_pos b_pos : list point) : bool :=
  match a_pos, b_pos with
  | a :: _, b :: _ => Nat.eqb (length a) (length b)
  | _, _ => true
  end.

Definition query_ball_tree (a_pos b_pos : list point) (r : Q)
  : result (list (list nat)) :=
  if same_dim a_pos b_pos
  then Ok (map (fun a => ball_from 0 r a b_pos) a_pos)
  else Raise ValueError.

(** [scores[iii, fancy_index] += max_score] for one row: every listed
    column receives the offset once; IndexError when a listed column is out
    of bounds. *)
Fixpoint boost_from (j : nat) (idx : list nat) (ms : Q) (row : list Q) : list Q :=
  match row with
  | [] => []
  | s :: t =>
      (if existsb (Nat.eqb j) idx then s + ms else s) :: boost_from (S j) idx ms t
  end.

Definition boost_row (idx : list nat) (ms : Q) (row : list Q) : result (list Q) :=
  if forallb (fun j => Nat.ltb j (length row)) idx
  then Ok (boost_from 0 idx ms row)
  else Raise IndexError.

(** The loop [for iii, fancy_index in enumerate(valid_pairs)]: row [iii]
    of [scores] must exist. *)
Fixpoint boost_rows (valid_pairs : list (list nat)) (ms : Q) (scores : matrix)
  : result matrix :=
  match valid_pairs with
  | [] => Ok scores
  | idx :: vp =>
      match scores with
      | [] => Raise IndexError
      | row :: rest =>
          row' <- boost_row idx ms row ;;
          rest' <- boost_rows vp ms rest ;;
          Ok (row' :: rest')
      end
  end.

(** Lines 214-223: the offset, the gated scores and the raised threshold. *)
Definition gate (a_pos b_pos : list point) (scores : matrix) (threshold : Q)
  (max_distance : option Q) : result (matrix * Q) :=
  m <- np_max scores ;;
  let max_score := m + 1 in
  match max_distance with
  | None => Ok (scores, threshold)
  | Some r =>
      valid_pairs <- query_ball_tree a_pos b_pos r ;;
      scores' <- boost_rows valid_pairs max_score scores ;;
      Ok (scores', threshold + max_score)
  end.

(** Line 226: [np.argmax(scores, axis=1)]. *)
Definition best_indcs (scores : matrix) : result (list nat) := mapM argmax scores.

(** Line 228: [scores[(a_indcs, best_indcs)] > threshold].  The two index
    sequences must have one length: for a non-empty [a_pos] numpy's
    broadcasting of a mismatch ends in IndexError.  (An empty [a_pos]
    against a one-row [scores] is the one mismatch numpy lets through, with
    two empty arrays; here it is raised like the others.)  [best] comes from
    the row itself, so the lookup is in bounds; the default of [nth] is
    never used on the result of [best_indcs]. *)
Definition keeps (scores : matrix) (best : list nat) (threshold : Q) : list bool :=
  map (fun rb => Qltb threshold (nth (snd rb) (fst rb) 0)) (combine scores best).

(** Lines 230-231: boolean-mask selection of the rows of [a_pos], integer
    selection of the rows of [b_pos], both cut to the first three columns. *)
Fixpoint kept_rows (i : nat) (ks : list bool) : list nat :=
  match ks with
  | [] => []
  | k :: t => if k then i :: kept_rows (S i) t else kept_rows (S i) t
  end.

Definition take_row (pos : list point) (i : nat) : result point :=
  match nth_error pos i with
  | Some p => Ok (firstn 3 p)
  | None => Raise IndexError
  end.

Definition match_points (a_pos b_pos : list point) (scores : matrix)
  (threshold : Q) (max_distance : option Q)
  : result (list point * list point) :=
  g <- gate a_pos b_pos scores threshold max_distance ;;
  let '(scores', threshold') := g in
  best <- best_indcs scores' ;;
  if negb (Nat.eqb (length scores') (length a_pos)) then Raise IndexError else
  let rows := kept_rows 0 (keeps scores' best threshold') in
  ma <- mapM (take_row a_pos) rows ;;
  mb <- mapM (fun i => take_row b_pos (nth i best 0%nat)) rows ;;
  Ok (ma, mb).

(** Pair [(i, j)] is in range: both points exist and their distance is at
    most [r]. *)
Definition in_range (r : Q) (a_pos b_pos : list point) (i j : nat) : Prop :=
  exists a b, nth_error a_pos i = Some a /\ nth_error b_pos j = Some b /\
              within r a b = true.

End Matching.

(** ** get_contexts *)

Module Contexts.

Section Arrays.

Variable T : Type.

(** An n-d array as nested lists: a 0-d scalar, or the list of the
    sub-arrays along the first axis.  An image has no axis of length 0. *)
Unset Elimination Schemes.
Inductive ndarray : Type :=
| Scalar (x : T)
| Array (xs : list ndarray).
Set Elimination Schemes.

Fixpoint ndim (a : ndarray) : nat :=
  match a with
  | Scalar _ => 0
  | Array [] => 1
  | Array (x :: _) => S (ndim x)
  end.

(** [a.flatten()]: the entries in row-major order. *)
Fixpoint flatten (a : ndarray) : list T :=
  match a with
  | Scalar x => [x]
  | Array xs => concat (map flatten xs)
  end.

(** Rectangular arrays and their shape. *)
Fixpoint has_shape (shape : list nat) (a : ndarray) : Prop :=
  match shape, a with
  | [], Scalar _ => True
  | n :: s, Array xs => length xs = n /\ Forall (has_shape s) xs
  | _, _ => False
  end.

(** [a[i1, ..., ik]] with integer indices, for reading single entries. *)
Fixpoint get (idx : list nat) (a : ndarray) : option ndarray :=
  match idx, a with
  | [], _ => Some a
  | i :: rest, Array xs =>
      match nth_error xs i with
      | Some x => get rest x
      | None => None
      end
  | _ :: _, Scalar _ => None
  end.

(** Python's [slice(start, stop)] on a sequence of length [n]: a negative
    bound counts from the end, then both bounds are clipped to [0, n]; the
    slice is empty when [stop <= start]. *)
Definition clip (n k : Z) : Z :=
  if (k <? 0)%Z then Z.max (k + n) 0 else Z.min k n.

Definition py_slice {A : Type} (start stop : Z) (l : list A) : list A :=
  let n := Z.of_nat (length l) in
  let lo := clip n start in
  let hi := clip n stop in
  firstn (Z.to_nat (hi - lo)) (skipn (Z.to_nat lo) l).

(** [image[crop]] for a tuple of slices: slice [k] cuts axis [k], the axes
    after the last slice are kept whole; IndexError when there are more
    slices than axes. *)
Fixpoint getitem (crop : list (Z * Z)) (a : ndarray) : ndarray :=
  match crop, a with
  | [], _ => a
  | (lo, hi) :: rest, Array xs => Array (map (getitem rest) (py_slice lo hi xs))
  | _ :: _, Scalar x => Scalar x
  end.

Definition image_getitem (crop : list (Z * Z)) (image : ndarray) : result ndarray :=
  if Nat.leb (length crop) (ndim image) then Ok (getitem crop image)
  else Raise IndexError.

(** The [radius] argument: a scalar int or a tuple of ints. *)
Inductive radius_arg : Type :=
| RInt (r : Z)
| RTuple (rs : list Z).

(** Lines 125-126. *)
Definition radius_tuple (radius : radius_arg) (image : ndarray) : list Z :=
  match radius with
  | RInt r => repeat r (ndim image)
  | RTuple rs => rs
  end.

(** Line 130: [slice(int(x - r), int(x + r + 1))] for [x, r] in
    [zip(coord, radius)].  [coords] is an int64 array, as [astype(int)]
    makes the spots of blob_detection (line 95): [x - r] and [x + r + 1]
    are the integers themselves as long as they stay in int64 (a narrower
    or unsigned dtype would wrap them), and [int] is the identity. *)
Definition crop_of (coord radius : list Z) : list (Z * Z) :=
  map (fun xr => (fst xr - snd xr, fst xr + snd xr + 1)%Z) (combine coord radius).

Definition get_contexts (image : ndarray) (coords : list (list Z))
  (radius : radius_arg) : result (list ndarray) :=
  let radius := radius_tuple radius image in
  mapM (fun coord => image_getitem (crop_of coord radius) image) coords.

End Arrays.

Arguments Scalar {T} x.
Arguments Array {T} xs.
Arguments ndim {T} a.
Arguments flatten {T} a.
Arguments has_shape {T} shape a.
Arguments get {T} idx a.
Arguments getitem {T} crop a.
Arguments image_getitem {T} crop image.
Arguments radius_tuple {T} radius image.
Arguments get_contexts {T} image coords radius.

Local Open Scope Z_scope.

(** The zipped list [combine coord radius] against the shape of the image:
    every windowed axis has a non-negative half width and the window
    [c - r .. c + r] inside [0 .. n - 1]. *)
Fixpoint interior (cr : list (Z * Z)) (shape : list nat) : Prop :=
  match cr, shape with
  | (c, r) :: cr', n :: ns =>
      (0 <= r /\ 0 <= c - r /\ c + r < Z.of_nat n) /\ interior cr' ns
  | _, _ => True
  end.

(** The shape of a window: [2r + 1] on a windowed axis, the whole axis
    after the last one. *)
Fixpoint window_shape (cr : list (Z * Z)) (shape : list nat) : list nat :=
  match cr, shape with
  | (c, r) :: cr', _ :: ns => Z.to_nat (2 * r + 1) :: window_shape cr' ns
  | _, _ => shape
  end.

(** Offsets [ks] into a window, one for every windowed axis at least, and
    the image index they stand for: [c - r + k] on a windowed axis. *)
Fixpoint in_window (cr : list (Z * Z)) (ks : list nat) : Prop :=
  match cr, ks with
  | (c, r) :: cr', k :: ks' => Z.of_nat k < 2 * r + 1 /\ in_window cr' ks'
  | [], _ => True
  | _ :: _, [] => False
  end.

Fixpoint shift (cr : list (Z * Z)) (ks : list nat) : list nat :=
  match cr, ks with
  | (c, r) :: cr', k :: ks' => (Z.to_nat (c - r) + k)%nat :: shift cr' ks'
  | _, _ => ks
  end.

(** The number of entries of an array of a given shape. *)
Definition size (shape : list nat) : nat := fold_right Nat.mul 1%nat shape.


End Contexts.

(** ** _stats and pairwise_correlation *)

Module Correlation.

Import Contexts.

Local Open Scope float_scope.

(** A 2-d float64 array is the list of its rows; the empty list stands for
    the 1-d array of shape (0,) that [np.array([])] is. *)
Definition matrix := list (list float).

Definition float_of_nat (n : nat) : float :=
  PrimFloat.of_uint63 (Uint63.of_Z (Z.of_nat n)).

(** [np.array(rows)] for a list of 1-d arrays: a 2-d array when all rows
    have one length; otherwise ValueError, whose message names the detected
    shape [(N,)] of the ragged list.  (Before numpy 1.24 the ragged list
    became an object array and [astype] failed inside [_stats], whose
    handler printed the same shape [(N,)] and raised again.) *)
Definition np_array (rows : list (list float)) : result matrix :=
  match rows with
  | [] => Ok []
  | r :: t =>
      if forallb (fun r' => Nat.eqb (length r') (length r)) t then Ok rows
      else Raise (InhomogeneousShape [length rows])
  end.

(** [np.add.reduce] along a contiguous row: numpy's pairwise summation.
    Fewer than 8 addends are added left to right; up to 128 go through
    eight running accumulators, which are then added in pairs, and the
    addends left over are added one by one; a longer row is split at about
    its middle, at a multiple of 8, and the two sums are added.  The result
    is added to the identity 0 of the reduction. *)
Definition add8 (r blk : list float) : list float :=
  map (fun x => fst x + snd x) (combine r blk).

Fixpoint acc_blocks (k : nat) (r a : list float) : list float * list float :=
  match k with
  | O => (r, a)
  | S k' => acc_blocks k' (add8 r (firstn 8 a)) (skipn 8 a)
  end.

Definition sum_block (a : list float) : float :=
  let '(r, rest) := acc_blocks (length a / 8 - 1) (firstn 8 a) (skipn 8 a) in
  let res :=
    match r with
    | [r0; r1; r2; r3; r4; r5; r6; r7] =>
        ((r0 + r1) + (r2 + r3)) + ((r4 + r5) + (r6 + r7))
    | _ => 0
    end in
  fold_left PrimFloat.add rest res.

Fixpoint pairwise_sum (fuel : nat) (a : list float) : float :=
  let n := length a in
  if Nat.ltb n 8 then fold_left PrimFloat.add a neg_zero
  else if Nat.leb n 128 then sum_block a
  else
    match fuel with
    | O => sum_block a
    | S fuel' =>
        let n2 := (n / 2 - (n / 2) mod 8)%nat in
        pairwise_sum fuel' (firstn n2 a) + pairwise_sum fuel' (skipn n2 a)
    end.

Definition np_sum (row : list float) : float := 0 + pairwise_sum (length row) row.

Definition np_mean (row : list float) : float :=
  np_sum row / float_of_nat (length row).

(** Lines 135-150.  On the 1-d array of shape (0,) [np.mean(arr, axis=1)]
    raises AxisError; the handler prints the shape and raises it again. *)
Definition _stats (arr : matrix) : result (list float * list float) :=
  match arr with
  | [] => Raise (AxisError [0%nat])
  | _ =>
      let means := map np_mean arr in
      let sqr_means := map (fun row => np_mean (map (fun x => x * x) row)) arr in
      let stddevs :=
        map (fun sm => PrimFloat.sqrt (fst sm - snd sm * snd sm))
          (combine sqr_means means) in
      Ok (means, stddevs)
  end.

(** [arr - mean[..., None]]. *)
Definition center (arr : matrix) (means : list float) : matrix :=
  map (fun rm => map (fun x => x - snd rm) (fst rm)) (combine arr means).

(** One entry of [np.matmul]: the products are added in index order.
    (The BLAS behind numpy may add them in another order or fuse a product
    with a sum; nothing below depends on the last bit of an entry where that
    could matter.) *)
Definition dot (u v : list float) : float :=
  fold_left (fun acc xy => acc + fst xy * snd xy) (combine u v) 0.

(** [np.matmul(a, b.T)] for row lists [a] (N x L) and [b] (M x L'):
    ValueError unless [L = L']. *)
Definition ncols (a : matrix) : nat := length (hd [] a).

Definition matmul_T (a b : matrix) : result matrix :=
  if Nat.eqb (ncols a) (ncols b)
  then Ok (map (fun u => map (fun v => dot u v) b) a)
  else Raise (MatmulMismatch (ncols a) (ncols b)).

Definition nan_to_zero (x : float) : float := if PrimFloat.is_nan x then 0 else x.

(** Lines 170-188. *)
Definition pairwise_correlation (A B : list (ndarray float)) : result matrix :=
  a_con <- np_array (map flatten A) ;;
  b_con <- np_array (map flatten B) ;;
  sa <- _stats a_con ;;
  sb <- _stats b_con ;;
  let '(a_mean, a_std) := sa in
  let '(b_mean, b_std) := sb in
  let a_con := center a_con a_mean in
  let b_con := center b_con b_mean in
  corr <- matmul_T a_con b_con ;;
  let corr := map (fun rs => map (fun c => c / snd rs) (fst rs)) (combine corr a_std) in
  let corr := map (fun row => map (fun cs => fst cs / snd cs) (combine row b_std)) corr in
  let corr := map (map (fun c => c / float_of_nat (ncols a_con))) corr in
  Ok (map (map nan_to_zero) corr).

(** What lines 141-143 and 177-184 compute for one row and for one entry:
    the deviation as the square root of the mean of the squares minus the
    square of the mean, and the dot product of the two centred rows divided
    by both deviations and by the length. *)
Definition population_std (x : list float) : float :=
  PrimFloat.sqrt (np_mean (map (fun v => v * v) x) - np_mean x * np_mean x).

Definition centered (x : list float) : list float :=
  map (fun v => v - np_mean x) x.

Definition pearson (x y : list float) : float :=
  dot (centered x) (centered y) / population_std x / population_std y
  / float_of_nat (length x).

(** The specification's side: the population standard deviation in its
    defining form, the square root of the mean squared deviation from the
    mean (no n-1 correction), and the Pearson coefficient with it. *)
Definition spec_population_std (x : list float) : float :=
  PrimFloat.sqrt (np_mean (map (fun v => (v - np_mean x) * (v - np_mean x)) x)).

Definition spec_pearson (x y : list float) : float :=
  dot (centered x) (centered y) / spec_population_std x / spec_population_std y
  / float_of_nat (length x).

(** A 1-d neighbourhood. *)
Definition vec (l : list float) : ndarray float := Array (map Scalar l).

(** The dimensions an error names. *)
Definition reported (e : exn) : list nat :=
  match e with
  | InhomogeneousShape s => s
  | AxisError s => s
  | MatmulMismatch k1 k2 => [k1; k2]
  | ValueError | IndexError => []
  end.

Definition uniform (rows : list (list float)) : bool :=
  match rows with
  | [] => true
  | r :: t => forallb (fun r' => Nat.eqb (length r') (length r)) t
  end.

End Correlation.

(** * Properties *)

Module MatchingFacts.

Import Matching.

Open Scope Q_scope.

(** *** Facts on the error monad and on the helpers *)

Lemma mapM_Forall2 {A B : Type} (f : A -> result B) (l : list A) (l' : list B) :
  mapM f l = Ok l' -> Forall2 (fun x y => f x = Ok y) l l'.
Proof.
  revert l'. induction l as [|a t IH]; simpl; intros l' H.
  - injection H as <-. constructor.
  - destruct (f a) as [b|e] eqn:Ea; simpl in H; [|discriminate].
    destruct (mapM f t) as [bs|e] eqn:Et; simpl in H; [|discriminate].
    injection H as <-. constructor; auto.
Qed.

Lemma mapM_length {A B : Type} (f : A -> result B) (l : list A) (l' : list B) :
  mapM f l = Ok l' -> length l' = length l.
Proof.
  intros H. apply mapM_Forall2 in H.
  induction H; simpl; congruence.
Qed.

Lemma mapM_map {A B : Type} (f : A -> result B) (g : A -> B) (l : list A)
  (l' : list B) :
  (forall x y, In x l -> f x = Ok y -> y = g x) ->
  mapM f l = Ok l' -> l' = map g l.
Proof.
  intros Hg H. apply mapM_Forall2 in H.
  induction H as [|x y l l' Hxy _ IH]; simpl; [reflexivity|].
  f_equal.
  - apply Hg; [left; reflexivity | exact Hxy].
  - apply IH. intros x' y' Hin. apply Hg. right. exact Hin.
Qed.

Lemma Qltb_lt (x y : Q) : Qltb x y = true <-> x < y.
Proof.
  unfold Qltb. rewrite negb_true_iff.
  split; intros H.
  - apply Qnot_le_lt. intros Hle. apply Qle_bool_iff in Hle. congruence.
  - destruct (Qle_bool y x) eqn:E; [|reflexivity].
    apply Qle_bool_iff in E. apply Qlt_not_le in H. contradiction.
Qed.

Lemma Qltb_irrefl (x y : Q) : x == y -> Qltb y x = false.
Proof.
  intros E. destruct (Qltb y x) eqn:H; [|reflexivity].
  apply Qltb_lt in H. rewrite E in H. apply Qlt_irrefl in H. contradiction.
Qed.

Lemma take_row_Ok (pos : list point) (i : nat) (p : point) :
  take_row pos i = Ok p -> (i < length pos)%nat /\ p = firstn 3 (nth i pos []).
Proof.
  unfold take_row. destruct (nth_error pos i) as [q|] eqn:E; [|discriminate].
  intros H. rewrite (nth_error_nth pos i [] E). split.
  - apply nth_error_Some. congruence.
  - congruence.
Qed.

Lemma kept_rows_In (ks : list bool) : forall i0 i,
  In i (kept_rows i0 ks) <->
  exists k, i = (i0 + k)%nat /\ nth_error ks k = Some true.
Proof.
  induction ks as [|b t IH]; intros i0 i; simpl.
  - split; [intros [] | intros [k [_ H]]; destruct k; discriminate].
  - assert (Ht : In i (kept_rows (S i0) t) <->
                 exists k, i = (i0 + S k)%nat /\ nth_error t k = Some true).
    { rewrite IH. split; intros [k [E H]]; exists k; split; auto; lia. }
    destruct b; simpl; rewrite Ht; split.
    + intros [<- | [k [E H]]]; [exists 0%nat | exists (S k)]; split; auto; lia.
    + intros [[|k] [E H]]; [left; lia | right; exists k; auto].
    + intros [k [E H]]. exists (S k). auto.
    + intros [[|k] [E H]]; [discriminate | exists k; auto].
Qed.

Lemma kept_rows_length (ks : list bool) : forall i0,
  (length (kept_rows i0 ks) <= length ks)%nat.
Proof.
  induction ks as [|b t IH]; intros i0; simpl; [lia|].
  destruct b; simpl; specialize (IH (S i0)); lia.
Qed.

Lemma kept_rows_sorted (ks : list bool) : forall i0,
  StronglySorted lt (kept_rows i0 ks).
Proof.
  induction ks as [|b t IH]; intros i0; simpl; [constructor|].
  destruct b; [|apply IH].
  constructor; [apply IH|].
  apply Forall_forall. intros i Hi.
  apply kept_rows_In in Hi. destruct Hi as [k [-> _]]. lia.
Qed.

Lemma keeps_length (scores : matrix) (best : list nat) (t : Q) :
  length best = length scores -> length (keeps scores best t) = length scores.
Proof.
  intros E. unfold keeps. rewrite length_map, length_combine. lia.
Qed.

Lemma keeps_nth (scores : matrix) (best : list nat) (t : Q) (i : nat) :
  length best = length scores -> (i < length scores)%nat ->
  nth_error (keeps scores best t) i =
  Some (Qltb t (nth (nth i best 0%nat) (nth i scores []) 0)).
Proof.
  intros E Hi. unfold keeps.
  rewrite nth_error_map.
  assert (H : nth_error (combine scores best) i =
              Some (nth i scores [], nth i best 0%nat)).
  { rewrite <- (combine_nth scores best i [] 0%nat) by congruence.
    apply nth_error_nth'. rewrite length_combine. lia. }
  rewrite H. reflexivity.
Qed.

(** What a call that returns went through. *)
Lemma match_points_inv a_pos b_pos scores threshold max_distance ma mb :
  match_points a_pos b_pos scores threshold max_distance = Ok (ma, mb) ->
  exists scores' threshold' best,
    gate a_pos b_pos scores threshold max_distance = Ok (scores', threshold') /\
    best_indcs scores' = Ok best /\
    length scores' = length a_pos /\
    length best = length a_pos /\
    let rows := kept_rows 0 (keeps scores' best threshold') in
    ma = map (fun i => firstn 3 (nth i a_pos [])) rows /\
    mb = map (fun i => firstn 3 (nth (nth i best 0%nat) b_pos [])) rows.
Proof.
  unfold match_points. intros H.
  destruct (gate a_pos b_pos scores threshold max_distance) as [[s' t']|e];
    simpl in H; [|discriminate].
  destruct (best_indcs s') as [best|e] eqn:Eb; simpl in H; [|discriminate].
  destruct (Nat.eqb (length s') (length a_pos)) eqn:El; simpl in H; [|discriminate].
  apply Nat.eqb_eq in El.
  destruct (mapM (take_row a_pos) (kept_rows 0 (keeps s' best t'))) as [xa|e] eqn:Ea;
    simpl in H; [|discriminate].
  destruct (mapM (fun i => take_row b_pos (nth i best 0%nat))
              (kept_rows 0 (keeps s' best t'))) as [xb|e] eqn:Ebb;
    simpl in H; [|discriminate].
  injection H as <- <-.
  exists s', t', best. repeat split; auto.
  - unfold best_indcs in Eb. apply mapM_length in Eb. congruence.
  - apply mapM_map with (f := take_row a_pos); [|exact Ea].
    intros x y _ Hx. apply take_row_Ok in Hx. tauto.
  - apply mapM_map with (f := fun i => take_row b_pos (nth i best 0%nat));
      [|exact Ebb].
    intros x y _ Hx. apply take_row_Ok in Hx. tauto.
Qed.

(** *** The gate as a transformation of the scores *)

Lemma Qmaxb_fold_ge (l : list Q) : forall x,
  x <= fold_left Qmaxb l x /\ (forall y, In y l -> y <= fold_left Qmaxb l x).
Proof.
  induction l as [|a t IH]; intros x; simpl.
  - split; [apply Qle_refl | intros y []].
  - destruct (IH (Qmaxb x a)) as [H1 H2].
    assert (Hx : x <= Qmaxb x a /\ a <= Qmaxb x a).
    { unfold Qmaxb. destruct (Qle_bool x a) eqn:E.
      - apply Qle_bool_iff in E. split; [exact E | apply Qle_refl].
      - split; [apply Qle_refl|].
        apply Qlt_le_weak, Qnot_le_lt. intros Hle.
        apply Qle_bool_iff in Hle. congruence. }
    split; [eapply Qle_trans; [apply Hx | exact H1]|].
    intros y [<- | Hy]; [eapply Qle_trans; [apply Hx | exact H1] | auto].
Qed.

Lemma np_max_ub (scores : matrix) (m : Q) :
  np_max scores = Ok m ->
  forall i j row s,
    nth_error scores i = Some row -> nth_error row j = Some s -> s <= m.
Proof.
  unfold np_max. intros H i j row s Hr Hs.
  assert (Hin : In s (concat scores)).
  { apply in_concat. exists row.
    split; eapply nth_error_In; eauto. }
  destruct (concat scores) as [|x t]; [discriminate|].
  injection H as <-.
  destruct (Qmaxb_fold_ge t x) as [H1 H2].
  destruct Hin as [<- | Hin]; auto.
Qed.

Lemma boost_from_nth (idx : list nat) (ms : Q) (row : list Q) : forall j0 k,
  nth_error (boost_from j0 idx ms row) k =
  option_map (fun s => if existsb (Nat.eqb (j0 + k)) idx then s + ms else s)
    (nth_error row k).
Proof.
  induction row as [|s t IH]; intros j0 k; simpl.
  - destruct k; reflexivity.
  - destruct k; simpl.
    + rewrite Nat.add_0_r. reflexivity.
    + rewrite IH. replace (S j0 + k)%nat with (j0 + S k)%nat by lia. reflexivity.
Qed.

Lemma boost_rows_nth (ms : Q) : forall valid_pairs scores scores',
  boost_rows valid_pairs ms scores = Ok scores' ->
  forall i row, nth_error scores i = Some row ->
    nth_error scores' i =
    Some (match nth_error valid_pairs i with
          | Some idx => boost_from 0 idx ms row
          | None => row
          end).
Proof.
  induction valid_pairs as [|idx vp IH]; intros scores scores' H i row Hr.
  - simpl in H. injection H as <-. destruct i; exact Hr.
  - destruct scores as [|r0 rest]; simpl in H; [discriminate|].
    unfold boost_row in H.
    destruct (forallb _ idx); simpl in H; [|discriminate].
    destruct (boost_rows vp ms rest) as [rest'|e] eqn:E; simpl in H; [|discriminate].
    injection H as <-.
    destruct i; simpl in *.
    + congruence.
    + eapply IH; eauto.
Qed.

Lemma ball_from_In (r : Q) (a : point) (b_pos : list point) : forall j0 j,
  In j (ball_from j0 r a b_pos) <->
  exists k b, j = (j0 + k)%nat /\ nth_error b_pos k = Some b /\ within r a b = true.
Proof.
  induction b_pos as [|b t IH]; intros j0 j; simpl.
  - split; [intros [] | intros (k & b & _ & H & _); destruct k; discriminate].
  - assert (Ht : In j (ball_from (S j0) r a t) <->
                 exists k b', j = (j0 + S k)%nat /\ nth_error t k = Some b' /\
                              within r a b' = true).
    { rewrite IH. split; intros (k & b' & E & H); exists k, b'; split; auto; lia. }
    destruct (within r a b) eqn:W; simpl; rewrite Ht; split.
    + intros [<- | (k & b' & E & H)].
      * exists 0%nat, b. repeat split; auto; lia.
      * exists (S k), b'. auto.
    + intros ([|k] & b' & E & H & W').
      * left. lia.
      * right. exists k, b'. auto.
    + intros (k & b' & E & H). exists (S k), b'. auto.
    + intros ([|k] & b' & E & H & W').
      * simpl in H. congruence.
      * exists k, b'. auto.
Qed.

Lemma in_range_ball r a_pos b_pos i j a :
  nth_error a_pos i = Some a ->
  existsb (Nat.eqb j) (ball_from 0 r a b_pos) = true <-> in_range r a_pos b_pos i j.
Proof.
  intros Ha. rewrite existsb_exists. split.
  - intros (x & Hx & E). apply Nat.eqb_eq in E. subst x.
    apply ball_from_In in Hx. destruct Hx as (k & b & -> & Hb & W).
    exists a, b. auto.
  - intros (a' & b & Ha' & Hb & W).
    assert (a' = a) by congruence. subst a'.
    exists j. split; [|apply Nat.eqb_refl].
    apply ball_from_In. exists j, b. auto.
Qed.

(** One entry of the gated matrix: the offset [max(scores) + 1] is added
    exactly to the in-range entries, and the threshold is raised by it. *)
Lemma gate_entry a_pos b_pos scores threshold r scores' threshold' i j row s :
  gate a_pos b_pos scores threshold (Some r) = Ok (scores', threshold') ->
  (i < length a_pos)%nat ->
  nth_error scores i = Some row -> nth_error row j = Some s ->
  exists m row' s',
    np_max scores = Ok m /\ s <= m /\
    threshold' = threshold + (m + 1) /\
    nth_error scores' i = Some row' /\ nth_error row' j = Some s' /\
    (in_range r a_pos b_pos i j -> s' = s + (m + 1)) /\
    (~ in_range r a_pos b_pos i j -> s' = s).
Proof.
  unfold gate. intros H Hi Hr Hs.
  destruct (np_max scores) as [m|e] eqn:Em; simpl in H; [|discriminate].
  unfold query_ball_tree in H.
  destruct (same_dim a_pos b_pos); simpl in H; [|discriminate].
  destruct (boost_rows _ (m + 1) scores) as [sc|e] eqn:Eb; simpl in H; [|discriminate].
  injection H as <- <-.
  destruct (nth_error a_pos i) as [a|] eqn:Ea;
    [|apply nth_error_None in Ea; lia].
  pose proof (boost_rows_nth _ _ _ _ Eb _ _ Hr) as Hrow.
  rewrite nth_error_map, Ea in Hrow. simpl in Hrow.
  pose proof (boost_from_nth (ball_from 0 r a b_pos) (m + 1) row 0 j) as Hent.
  rewrite Hs in Hent. simpl in Hent.
  exists m, (boost_from 0 (ball_from 0 r a b_pos) (m + 1) row),
    (if existsb (Nat.eqb j) (ball_from 0 r a b_pos) then s + (m + 1) else s).
  split; [reflexivity|]. split; [eapply np_max_ub; eauto|].
  split; [reflexivity|]. split; [exact Hrow|]. split; [exact Hent|]. split.
  - intros Hin. apply (@in_range_ball r a_pos b_pos i j a Ea) in Hin.
    rewrite Hin. reflexivity.
  - intros Hout. destruct (existsb _ _) eqn:E; [|reflexivity].
    apply (@in_range_ball r a_pos b_pos i j a Ea) in E. contradiction.
Qed.

(** For a threshold of at least -1 the raised threshold separates: an
    in-range entry is above it exactly when its raw score is above the
    original threshold, and no out-of-range entry is above it. *)
Lemma gate_separates a_pos b_pos scores threshold r scores' threshold' i j row s :
  gate a_pos b_pos scores threshold (Some r) = Ok (scores', threshold') ->
  (i < length a_pos)%nat ->
  nth_error scores i = Some row -> nth_error row j = Some s ->
  exists row' s',
    nth_error scores' i = Some row' /\ nth_error row' j = Some s' /\
    (in_range r a_pos b_pos i j -> (threshold' < s' <-> threshold < s)) /\
    (~ in_range r a_pos b_pos i j -> -1 <= threshold -> ~ threshold' < s').
Proof.
  intros H Hi Hr Hs.
  destruct (gate_entry _ _ _ _ _ _ _ _ _ _ _ H Hi Hr Hs)
    as (m & row' & s' & Hm & Hle & -> & Hr' & Hs' & Hin & Hout).
  exists row', s'. split; [exact Hr'|]. split; [exact Hs'|]. split.
  - intros Hyes. rewrite (Hin Hyes). split; intros Hlt; lra.
  - intros Hno Ht. rewrite (Hout Hno). lra.
Qed.

(** *** The matching claims *)

(** The example of the specification: B[1] scores higher but is out of
    range, the pair returned is A[0], B[0]. *)
Lemma match_points_gating_example :
  match_points [[0;0;0]] [[0;0;5]; [0;0;100]] [[9#10; 95#100]] (1#2) (Some 10)
  = Ok ([[0;0;0]], [[0;0;5]]).
Proof. reflexivity. Qed.

(** C1.  The gate fails below -1: with [threshold = -2] the raised
    threshold [-2 + (0.5 + 1)] is under the raw score 0.5 of the only pair,
    which is 100 apart with [max_distance = 10] and was not boosted; the
    pair is returned all the same. *)
Theorem match_points_gate_leak :
  query_ball_tree [[0;0;0]] [[0;0;100]] 10 = Ok [[]] /\
  ~ in_range 10 [[0;0;0]] [[0;0;100]] 0 0 /\
  gate [[0;0;0]] [[0;0;100]] [[1#2]] (-2) (Some 10)
  = Ok ([[1#2]], -2 + ((1#2) + 1)) /\
  Qltb (-2 + ((1#2) + 1)) (1#2) = true /\
  match_points [[0;0;0]] [[0;0;100]] [[1#2]] (-2) (Some 10)
  = Ok ([[0;0;0]], [[0;0;100]]).
Proof.
  split; [reflexivity|]. split.
  - intros (a & b & Ha & Hb & W).
    injection Ha as <-. injection Hb as <-. discriminate W.
  - repeat split; reflexivity.
Qed.


(** C5.  A row is kept only when its best score is strictly above the
    (possibly raised) threshold: the returned points are exactly those of
    the rows [i] with [threshold' < scores'[i, best i]], and a row whose
    best score equals the threshold is not among them.  With
    [scores = [[0.5]]], [threshold = 0.5] and no [max_distance] the output
    is empty. *)
Theorem match_points_strict_threshold :
  (forall a b : point,
      match_points [a] [b] [[1#2]] (1#2) None = Ok ([], [])) /\
  (forall a_pos b_pos scores threshold max_distance ma mb,
      match_points a_pos b_pos scores threshold max_distance = Ok (ma, mb) ->
      exists scores' threshold' best,
        gate a_pos b_pos scores threshold max_distance = Ok (scores', threshold') /\
        best_indcs scores' = Ok best /\
        let rows := kept_rows 0 (keeps scores' best threshold') in
        ma = map (fun i => firstn 3 (nth i a_pos [])) rows /\
        mb = map (fun i => firstn 3 (nth (nth i best 0%nat) b_pos [])) rows /\
        forall i, (i < length a_pos)%nat ->
          let s := nth (nth i best 0%nat) (nth i scores' []) 0 in
          (In i rows <-> threshold' < s) /\
          (s == threshold' -> ~ In i rows)).
Proof.
  split; [reflexivity|].
  intros a_pos b_pos scores threshold max_distance ma mb H.
  destruct (match_points_inv _ _ _ _ _ _ _ H)
    as (s' & t' & best & Hg & Hb & Hl & Hlb & Hma & Hmb).
  exists s', t', best. cbv zeta. repeat split; auto.
  - intros Hin. apply kept_rows_In in Hin. destruct Hin as [k [-> Hk]].
    simpl in *. rewrite keeps_nth in Hk by lia.
    injection Hk as Hk. apply Qltb_lt. exact Hk.
  - intros Hlt. apply kept_rows_In. exists i. split; [reflexivity|].
    rewrite keeps_nth by lia. f_equal. apply Qltb_lt. exact Hlt.
  - intros Heq Hin. apply kept_rows_In in Hin. destruct Hin as [k [-> Hk]].
    simpl in *. rewrite keeps_nth in Hk by lia.
    injection Hk as Hk. rewrite (Qltb_irrefl _ _ Heq) in Hk. discriminate.
Qed.

Lemma match_points_strict_threshold_witness :
  exists scores' threshold' best,
    gate [[0;0;0]] [[0;0;5]] [[1#2]] (1#2) None = Ok (scores', threshold') /\
    best_indcs scores' = Ok best /\
    let rows := kept_rows 0 (keeps scores' best threshold') in
    [] = map (fun i => firstn 3 (nth i [[0;0;0]] [])) rows /\
    [] = map (fun i => firstn 3 (nth (nth i best 0%nat) [[0;0;5]] [])) rows /\
    forall i, (i < length [[0;0;0]])%nat ->
      let s := nth (nth i best 0%nat) (nth i scores' []) 0 in
      (In i rows <-> threshold' < s) /\
      (s == threshold' -> ~ In i rows).
Proof.
  apply (proj2 match_points_strict_threshold
           [[0;0;0]] [[0;0;5]] [[1#2]] (1#2) None [] []).
  reflexivity.
Defined.

(** C6.  The two returned sequences have one length, at most
    [len(a_pos)]; they are read off one strictly increasing list of
    A-indices, so every A-index gives at most one pair.  Nothing of the
    kind holds on the B side: two A-points may pick the same B-point. *)
Theorem match_points_cardinality :
  (match_points [[0;0;0]; [1;1;1]] [[0;0;5]] [[9#10]; [8#10]] (1#2) None
   = Ok ([[0;0;0]; [1;1;1]], [[0;0;5]; [0;0;5]])) /\
  (forall a_pos b_pos scores threshold max_distance ma mb,
      match_points a_pos b_pos scores threshold max_distance = Ok (ma, mb) ->
      length ma = length mb /\
      (length ma <= length a_pos)%nat /\
      exists rows best,
        StronglySorted lt rows /\
        Forall (fun i => (i < length a_pos)%nat) rows /\
        ma = map (fun i => firstn 3 (nth i a_pos [])) rows /\
        mb = map (fun i => firstn 3 (nth (nth i best 0%nat) b_pos [])) rows).
Proof.
  split; [reflexivity|].
  intros a_pos b_pos scores threshold max_distance ma mb H.
  destruct (match_points_inv _ _ _ _ _ _ _ H)
    as (s' & t' & best & Hg & Hb & Hl & Hlb & Hma & Hmb).
  assert (Hk : length (keeps s' best t') = length a_pos).
  { rewrite keeps_length; congruence. }
  split; [|split].
  - rewrite Hma, Hmb, !length_map. reflexivity.
  - rewrite Hma, length_map, <- Hk. apply kept_rows_length.
  - exists (kept_rows 0 (keeps s' best t')), best.
    repeat split; auto.
    + apply kept_rows_sorted.
    + apply Forall_forall. intros i Hi.
      apply kept_rows_In in Hi. destruct Hi as [k [-> Hi]].
      simpl. rewrite <- Hk. apply nth_error_Some. congruence.
Qed.

Lemma match_points_cardinality_witness :
  length [[0;0;0]] = length [[0;0;5]] /\
  (length [[0;0;0]] <= length [[0;0;0]])%nat /\
  exists rows best,
    StronglySorted lt rows /\
    Forall (fun i => (i < length [[0;0;0]])%nat) rows /\
    [[0;0;0]] = map (fun i => firstn 3 (nth i [[0;0;0]] [])) rows /\
    [[0;0;5]] =
    map (fun i => firstn 3 (nth (nth i best 0%nat) [[0;0;5]; [0;0;100]] [])) rows.
Proof.
  apply (proj2 match_points_cardinality
           [[0;0;0]] [[0;0;5]; [0;0;100]] [[9#10; 95#100]] (1#2) (Some 10)).
  reflexivity.
Defined.

(** C9.  Only the first three columns of a kept point are returned: every
    returned row is [firstn 3] of the row of [a_pos] (of [b_pos]) it comes
    from, so columns past index 2 are dropped from both outputs, as for
    the four-column rows of blob_detection. *)
Theorem match_points_first_three_columns :
  (match_points [[0;0;0;7]] [[0;0;5;8]] [[9#10]] (1#2) None
   = Ok ([[0;0;0]], [[0;0;5]])) /\
  (forall a_pos b_pos scores threshold max_distance ma mb,
      match_points a_pos b_pos scores threshold max_distance = Ok (ma, mb) ->
      Forall (fun p => exists q, In q a_pos /\ p = firstn 3 q) ma /\
      Forall (fun p => exists q, In q b_pos /\ p = firstn 3 q) mb /\
      Forall (fun p => (length p <= 3)%nat) (ma ++ mb)).
Proof.
  split; [reflexivity|].
  unfold match_points.
  intros a_pos b_pos scores threshold max_distance ma mb H.
  destruct (gate a_pos b_pos scores threshold max_distance) as [[s' t']|e];
    simpl in H; [|discriminate].
  destruct (best_indcs s') as [best|e]; simpl in H; [|discriminate].
  destruct (negb _); [discriminate|].
  destruct (mapM (take_row a_pos) _) as [xa|e] eqn:Ea; simpl in H; [|discriminate].
  destruct (mapM (fun i => take_row b_pos (nth i best 0%nat)) _) as [xb|e] eqn:Eb;
    simpl in H; [|discriminate].
  injection H as <- <-.
  assert (Hrow : forall pos i p, take_row pos i = Ok p ->
                   exists q, In q pos /\ p = firstn 3 q).
  { unfold take_row. intros pos i p Hp.
    destruct (nth_error pos i) as [q|] eqn:E; [|discriminate].
    exists q. split; [eapply nth_error_In; eauto | congruence]. }
  assert (Ha : Forall (fun p => exists q, In q a_pos /\ p = firstn 3 q) xa).
  { apply mapM_Forall2 in Ea. clear Eb.
    induction Ea as [|i p rows l Hp _ IH]; constructor; [|exact IH].
    exact (Hrow _ _ _ Hp). }
  assert (Hb : Forall (fun p => exists q, In q b_pos /\ p = firstn 3 q) xb).
  { apply mapM_Forall2 in Eb. clear Ea Ha.
    induction Eb as [|i p rows l Hp _ IH]; constructor; [|exact IH].
    exact (Hrow _ _ _ Hp). }
  assert (Hlen : forall pos l,
             Forall (fun p : point => exists q, In q pos /\ p = firstn 3 q) l ->
             Forall (fun p : point => (length p <= 3)%nat) l).
  { intros pos l Hl. eapply Forall_impl; [|exact Hl].
    intros p [q [_ ->]]. apply firstn_le_length. }
  split; [exact Ha|]. split; [exact Hb|].
  apply Forall_app. split; eapply Hlen; eassumption.
Qed.

Lemma match_points_first_three_columns_witness :
  Forall (fun p => exists q, In q [[0;0;0;7]] /\ p = firstn 3 q) [[0;0;0]] /\
  Forall (fun p => exists q, In q [[0;0;5;8]; [0;0;100;9]] /\ p = firstn 3 q)
    [[0;0;5]] /\
  Forall (fun p => (length p <= 3)%nat) ([[0;0;0]] ++ [[0;0;5]]).
Proof.
  apply (proj2 match_points_first_three_columns
           [[0;0;0;7]] [[0;0;5;8]; [0;0;100;9]] [[9#10; 95#100]] (1#2) (Some 20)).
  reflexivity.
Defined.

(** C10.  An empty score matrix (no row, or rows without columns) makes
    [np.max(scores)] raise: the call ends in ValueError, it does not return
    two empty sequences. *)
Theorem match_points_empty_scores a_pos b_pos scores threshold max_distance :
  concat scores = [] ->
  match_points a_pos b_pos scores threshold max_distance = Raise ValueError.
Proof.
  intros H. unfold match_points, gate, np_max. rewrite H. reflexivity.
Qed.

Lemma match_points_empty_scores_witness :
  match_points [] [[0;0;5]] [] (1#2) None = Raise ValueError /\
  match_points [[0;0;0]; [1;1;1]] [] [[]; []] (1#2) (Some 10) = Raise ValueError.
Proof.
  split.
  - apply (@match_points_empty_scores [] [[0;0;5]] [] (1#2) None). reflexivity.
  - apply (@match_points_empty_scores [[0;0;0]; [1;1;1]] [] [[]; []] (1#2) (Some 10)).
    reflexivity.
Defined.

End MatchingFacts.

Module ContextsFacts.

Import Contexts.

Section Windows.

Context {T : Type}.

Local Open Scope Z_scope.

Lemma py_slice_interior {A : Type} (l : list A) (c r : Z) :
  0 <= r -> 0 <= c - r -> c + r < Z.of_nat (length l) ->
  py_slice (c - r) (c + r + 1) l =
  firstn (Z.to_nat (2 * r + 1)) (skipn (Z.to_nat (c - r)) l).
Proof.
  intros Hr Hlo Hhi. unfold py_slice, clip.
  destruct (c - r <? 0) eqn:E1; [apply Z.ltb_lt in E1; lia|].
  destruct (c + r + 1 <? 0) eqn:E2; [apply Z.ltb_lt in E2; lia|].
  rewrite !Z.min_l by lia. f_equal. lia.
Qed.

Lemma py_slice_interior_length {A : Type} (l : list A) (c r : Z) :
  0 <= r -> 0 <= c - r -> c + r < Z.of_nat (length l) ->
  length (py_slice (c - r) (c + r + 1) l) = Z.to_nat (2 * r + 1).
Proof.
  intros Hr Hlo Hhi. rewrite py_slice_interior by assumption.
  rewrite length_firstn, length_skipn. lia.
Qed.

Lemma py_slice_interior_nth {A : Type} (l : list A) (c r : Z) (k : nat) :
  0 <= r -> 0 <= c - r -> c + r < Z.of_nat (length l) ->
  Z.of_nat k < 2 * r + 1 ->
  nth_error (py_slice (c - r) (c + r + 1) l) k =
  nth_error l (Z.to_nat (c - r) + k).
Proof.
  intros Hr Hlo Hhi Hk. rewrite py_slice_interior by assumption.
  rewrite nth_error_firstn.
  destruct (Nat.ltb_spec k (Z.to_nat (2 * r + 1))); [|lia].
  apply nth_error_skipn.
Qed.

Lemma py_slice_incl {A : Type} (l : list A) (lo hi : Z) (x : A) :
  In x (py_slice lo hi l) -> In x l.
Proof.
  unfold py_slice. intros H.
  set (n := Z.to_nat (clip (Z.of_nat (length l)) lo)) in *.
  set (k := Z.to_nat (clip (Z.of_nat (length l)) hi -
                      clip (Z.of_nat (length l)) lo)) in *.
  rewrite <- (firstn_skipn n l). apply in_or_app. right.
  rewrite <- (firstn_skipn k (skipn n l)). apply in_or_app. left. exact H.
Qed.

Lemma ndim_le_shape : forall (shape : list nat) (a : ndarray T),
  has_shape shape a -> (ndim a <= length shape)%nat.
Proof.
  induction shape as [|n s IH]; intros [x|xs] H; simpl in H; try tauto.
  - simpl. lia.
  - destruct H as [_ H]. destruct xs as [|x xs]; simpl; [lia|].
    inversion H; subst. apply le_n_S. apply IH. assumption.
Qed.

Lemma interior_le_ndim : forall (cr : list (Z * Z)) (shape : list nat) (a : ndarray T),
  has_shape shape a -> interior cr shape ->
  (length cr <= length shape)%nat -> (length cr <= ndim a)%nat.
Proof.
  induction cr as [|[c r] cr IH]; intros shape a Hs Hi Hl; simpl; [lia|].
  destruct shape as [|n ns]; simpl in Hl; [lia|].
  destruct a as [x|xs]; simpl in Hs; [tauto|].
  destruct Hs as [Hn Hall]. simpl in Hi. destruct Hi as [[Hr [Hlo Hhi]] Hi].
  destruct xs as [|x xs]; simpl in *; [lia|].
  inversion Hall; subst.
  apply le_n_S. eapply IH; eauto. lia.
Qed.

Lemma getitem_window : forall (cr : list (Z * Z)) (shape : list nat) (a : ndarray T),
  has_shape shape a -> interior cr shape ->
  (length cr <= length shape)%nat ->
  let w := getitem (map (fun xr => (fst xr - snd xr, fst xr + snd xr + 1)) cr) a in
  has_shape (window_shape cr shape) w /\
  forall ks, in_window cr ks -> get ks w = get (shift cr ks) a.
Proof.
  induction cr as [|[c r] cr IH]; intros shape a Hs Hi Hl; simpl.
  - split; [destruct shape; exact Hs | reflexivity].
  - destruct shape as [|n ns]; simpl in Hl; [lia|].
    destruct a as [x|xs]; simpl in Hs; [tauto|].
    destruct Hs as [Hn Hall]. simpl in Hi. destruct Hi as [[Hr [Hlo Hhi]] Hi].
    rewrite <- Hn in Hhi.
    assert (Hsub : forall x, In x (py_slice (c - r) (c + r + 1) xs) ->
                     has_shape ns x).
    { intros x Hx. apply py_slice_incl in Hx.
      rewrite Forall_forall in Hall. auto. }
    split.
    + simpl. split.
      * rewrite length_map. apply py_slice_interior_length; assumption.
      * apply Forall_forall. intros y Hy. apply in_map_iff in Hy.
        destruct Hy as (x & <- & Hx).
        apply IH; auto. lia.
    + intros [|k ks]; simpl; [tauto|]. intros [Hk Hks].
      rewrite nth_error_map, py_slice_interior_nth by assumption.
      destruct (nth_error xs (Z.to_nat (c - r) + k)) as [x|] eqn:Ex; [|reflexivity].
      simpl. apply IH with (shape := ns); auto; [|lia].
      rewrite Forall_forall in Hall. apply Hall. eapply nth_error_In; eauto.
Qed.

Lemma mapM_total {A B : Type} (f : A -> result B) (g : A -> B) (l : list A) :
  (forall x, In x l -> f x = Ok (g x)) -> mapM f l = Ok (map g l).
Proof.
  induction l as [|a t IH]; intros H; simpl; [reflexivity|].
  rewrite (H a) by (left; reflexivity). simpl.
  rewrite IH by (intros x Hx; apply H; right; exact Hx). reflexivity.
Qed.

(** C8.  For an image of shape [shape], a scalar radius or a tuple no
    longer than the number of axes, and coordinates that are interior on
    every windowed axis: [get_contexts] returns one neighbourhood per
    coordinate, in the order of [coords]; the neighbourhood of [coord] has
    extent [2r + 1] on each windowed axis, and its entry at offset [k] is
    the entry of the image at [c - r + k], so the window is the index range
    [c - r .. c + r]. *)
Theorem get_contexts_windows (image : ndarray T) (shape : list nat)
  (coords : list (list Z)) (radius : radius_arg) :
  has_shape shape image ->
  match radius with
  | RInt _ => True
  | RTuple rs => (length rs <= length shape)%nat
  end ->
  let rs := radius_tuple radius image in
  Forall (fun coord => interior (combine coord rs) shape) coords ->
  exists nbhds,
    get_contexts image coords radius = Ok nbhds /\
    length nbhds = length coords /\
    forall i coord, nth_error coords i = Some coord ->
      exists w,
        nth_error nbhds i = Some w /\
        has_shape (window_shape (combine coord rs) shape) w /\
        forall ks, in_window (combine coord rs) ks ->
                   get ks w = get (shift (combine coord rs) ks) image.
Proof.
  intros Hs Hrad rs Hint.
  assert (Hrs : (length rs <= length shape)%nat).
  { subst rs. destruct radius as [r|rs']; simpl; [|exact Hrad].
    rewrite repeat_length. apply ndim_le_shape. exact Hs. }
  assert (Hcr : forall coord : list Z,
             (length (combine coord rs) <= length shape)%nat).
  { intros coord. rewrite length_combine. lia. }
  exists (map (fun coord => getitem (crop_of coord rs) image) coords).
  split; [|split].
  - unfold get_contexts. fold rs. apply mapM_total.
    intros coord Hc. unfold image_getitem.
    rewrite Forall_forall in Hint.
    assert (Hle : (length (crop_of coord rs) <= ndim image)%nat).
    { unfold crop_of. rewrite length_map.
      eapply interior_le_ndim; eauto. }
    apply Nat.leb_le in Hle. rewrite Hle. reflexivity.
  - apply length_map.
  - intros i coord Hi.
    exists (getitem (crop_of coord rs) image). split.
    + rewrite nth_error_map, Hi. reflexivity.
    + rewrite Forall_forall in Hint.
      apply getitem_window; auto.
      apply Hint. eapply nth_error_In; eauto.
Qed.

End Windows.

(** Radius 2 on a 1-d image of ten voxels, at coordinate 4. *)
Lemma get_contexts_windows_witness :
  exists nbhds,
    get_contexts (Array (map Scalar [10;11;12;13;14;15;16;17;18;19]%Z))
      [[4%Z]] (RInt 2) = Ok nbhds /\
    length nbhds = 1%nat /\
    forall i coord, nth_error [[4%Z]] i = Some coord ->
      exists w,
        nth_error nbhds i = Some w /\
        has_shape (window_shape (combine coord [2%Z]) [10%nat]) w /\
        forall ks, in_window (combine coord [2%Z]) ks ->
                   get ks w =
                   get (shift (combine coord [2%Z]) ks)
                     (Array (map Scalar [10;11;12;13;14;15;16;17;18;19]%Z)).
Proof.
  apply (@get_contexts_windows Z
           (Array (map Scalar [10;11;12;13;14;15;16;17;18;19]%Z))
           [10%nat] [[4%Z]] (RInt 2)).
  - simpl. split; [reflexivity|]. repeat constructor.
  - exact I.
  - repeat constructor; simpl; lia.
Defined.

End ContextsFacts.

Module CorrelationFacts.

Import Contexts Correlation.

Local Open Scope float_scope.

Lemma np_array_uniform (rows : list (list float)) :
  np_array rows =
  if uniform rows then Ok rows else Raise (InhomogeneousShape [length rows]).
Proof. destruct rows as [|r t]; reflexivity. Qed.

Lemma uniform_ncols (rows : list (list float)) :
  uniform rows = true -> forall r, In r rows -> length r = ncols rows.
Proof.
  destruct rows as [|r0 t]; simpl; [intros _ r []|].
  intros H r [<- | Hr]; [reflexivity|].
  rewrite forallb_forall in H. apply Nat.eqb_eq. auto.
Qed.

Lemma uniform_of_lengths (rows : list (list float)) (L : nat) :
  (forall r, In r rows -> length r = L) -> uniform rows = true.
Proof.
  destruct rows as [|r0 t]; simpl; [reflexivity|].
  intros H. apply forallb_forall. intros r Hr. apply Nat.eqb_eq.
  rewrite (H r0), (H r); auto.
Qed.

Lemma map_combine_map {A B C : Type} (f : A -> B) (g : A * B -> C) (l : list A) :
  map g (combine l (map f l)) = map (fun x => g (x, f x)) l.
Proof. induction l as [|a t IH]; simpl; congruence. Qed.

Lemma combine_map_map {A B C : Type} (f : A -> B) (g : A -> C) (l : list A) :
  combine (map f l) (map g l) = map (fun x => (f x, g x)) l.
Proof. induction l as [|a t IH]; simpl; congruence. Qed.

Lemma center_rows (arr : matrix) : center arr (map np_mean arr) = map centered arr.
Proof. unfold center. rewrite map_combine_map. reflexivity. Qed.

Lemma stats_rows (arr : matrix) :
  arr <> [] -> _stats arr = Ok (map np_mean arr, map population_std arr).
Proof.
  intros H. destruct arr as [|r t]; [congruence|].
  unfold _stats. rewrite combine_map_map, map_map. reflexivity.
Qed.

Lemma ncols_centered (arr : matrix) : ncols (map centered arr) = ncols arr.
Proof.
  destruct arr as [|r t]; [reflexivity|].
  unfold ncols, centered. simpl. apply length_map.
Qed.

(** The matrix pipeline of lines 181-187 on two stacks of rows, entry by
    entry. *)
Lemma pairwise_correlation_rows (A B : list (ndarray float)) :
  let ra := map flatten A in
  let rb := map flatten B in
  ra <> [] -> rb <> [] -> uniform ra = true -> uniform rb = true ->
  ncols ra = ncols rb ->
  pairwise_correlation A B =
  Ok (map (fun x => map (fun y => nan_to_zero (pearson x y)) rb) ra).
Proof.
  intros ra rb Ha Hb Hua Hub Hcols.
  unfold pairwise_correlation. fold ra rb. clearbody ra rb.
  rewrite !np_array_uniform, Hua, Hub. simpl.
  rewrite (stats_rows ra Ha), (stats_rows rb Hb). simpl.
  rewrite !center_rows.
  unfold matmul_T. rewrite !ncols_centered, Hcols, Nat.eqb_refl. simpl.
  f_equal.
  rewrite (map_map centered _ ra), combine_map_map, !map_map.
  apply map_ext_in. intros x Hx. cbv beta. unfold fst, snd.
  rewrite !map_map, combine_map_map, !map_map.
  apply map_ext. intros y.
  unfold pearson. rewrite (uniform_ncols ra Hua x Hx), Hcols. reflexivity.
Qed.

Lemma nan_to_zero_not_nan (x : float) : PrimFloat.is_nan (nan_to_zero x) = false.
Proof.
  unfold nan_to_zero. destruct (PrimFloat.is_nan x) eqn:E; [reflexivity | exact E].
Qed.

(** Whatever the call returns has no NaN entry: line 187. *)
Lemma pairwise_correlation_no_nan (A B : list (ndarray float)) (corr : matrix) :
  pairwise_correlation A B = Ok corr ->
  Forall (Forall (fun c => PrimFloat.is_nan c = false)) corr.
Proof.
  unfold pairwise_correlation. intros H.
  destruct (np_array (map flatten A)) as [a|e]; simpl in H; [|discriminate].
  destruct (np_array (map flatten B)) as [b|e]; simpl in H; [|discriminate].
  destruct (_stats a) as [[am asd]|e]; simpl in H; [|discriminate].
  destruct (_stats b) as [[bm bsd]|e]; simpl in H; [|discriminate].
  destruct (matmul_T _ _) as [c|e]; simpl in H; [|discriminate].
  injection H as <-.
  apply Forall_forall. intros row Hrow. apply in_map_iff in Hrow.
  destruct Hrow as (r & <- & _).
  apply Forall_forall. intros x Hx. apply in_map_iff in Hx.
  destruct Hx as (y & <- & _). apply nan_to_zero_not_nan.
Qed.

Lemma lengths_stack (A : list (ndarray float)) (L : nat) :
  A <> [] ->
  (forall a, In a A -> length (flatten a) = L) ->
  map flatten A <> [] /\ uniform (map flatten A) = true /\
  ncols (map flatten A) = L.
Proof.
  intros Hne HL. destruct A as [|a t]; [congruence|].
  split; [discriminate|]. split.
  - apply uniform_of_lengths with (L := L).
    intros r Hr. apply in_map_iff in Hr. destruct Hr as (x & <- & Hx). auto.
  - unfold ncols. simpl. apply HL. left. reflexivity.
Qed.

(** C2.  The entry is not always the Pearson coefficient: for the two
    voxels 100000000, 100000001 against the two voxels 0, 1 the population
    standard deviations are 0.5 and 0.5, the centred dot product is 0.5 and
    the coefficient is 0.5 / 0.5 / 0.5 / 2 = 1; lines 141-143 compute the
    first deviation as the square root of [E[x^2] - E[x]^2], which is 0
    after rounding, and the entry returned is 0.5 / 0 = infinity. *)
Theorem pairwise_correlation_not_pearson :
  let x := [100000000; 100000001] in
  let y := [0; 1] in
  spec_population_std x = 0.5 /\
  spec_population_std y = 0.5 /\
  dot (centered x) (centered y) = 0.5 /\
  spec_pearson x y = 1 /\
  population_std x = 0 /\
  pairwise_correlation [vec x] [vec y] = Ok [[infinity]].
Proof. vm_compute. repeat split; reflexivity. Qed.

(** C3.  A flat neighbourhood does not always give 0: for three voxels of
    value 1.77 the mean is rounded away from 1.77, the variance
    [E[x^2] - E[x]^2] is exactly 0, the centred vector is not, and the
    entry is 3 d^2 / 0 = infinity, which line 187 does not touch. *)
Theorem pairwise_correlation_flat_not_zero :
  let c := 0x1.c51eb851eb852p+0 in
  PrimFloat.eqb (np_mean [c; c; c]) c = false /\
  population_std [c; c; c] = 0 /\
  PrimFloat.ltb 0 (dot (centered [c; c; c]) (centered [c; c; c])) = true /\
  pairwise_correlation [vec [c; c; c]] [vec [c; c; c]] = Ok [[infinity]].
Proof. vm_compute. repeat split; reflexivity. Qed.

(** C4.  Self-correlation is neither 1 nor 0 where the variance cancels:
    for the two voxels 100000000 and 100000001 the squares are rounded, the
    computed variance is 0 and the entry is 0.5 / 0 = infinity; the flat
    neighbourhood of three voxels 1.77 gives infinity as well. *)
Theorem pairwise_correlation_self_not_one :
  let x := [100000000; 100000001] in
  let c := 0x1.c51eb851eb852p+0 in
  np_mean x = 100000000.5 /\
  population_std x = 0 /\
  dot (centered x) (centered x) = 0.5 /\
  pairwise_correlation [vec x] [vec x] = Ok [[infinity]] /\
  pairwise_correlation [vec [c; c; c]] [vec [c; c; c]] = Ok [[infinity]].
Proof. vm_compute. repeat split; reflexivity. Qed.

(** Where nothing is rounded the two cases of the self-correlation are as
    intended. *)
Lemma pairwise_correlation_self_exact :
  pairwise_correlation [vec [1; 3]] [vec [1; 3]] = Ok [[1]] /\
  pairwise_correlation [vec [5; 5; 5]] [vec [5; 5; 5]] = Ok [[0]] /\
  pairwise_correlation [vec [5; 5; 5]] [vec [1; 2; 3]; vec [5; 5; 5]] = Ok [[0; 0]].
Proof. vm_compute. repeat split; reflexivity. Qed.

(** C7, as stated, fails: two neighbourhoods of 1 and 3 voxels in one list
    raise an error that names the shape (2,) of the list, and neither 1
    nor 3. *)
Lemma pairwise_correlation_ragged_unreported :
  pairwise_correlation [vec [1]; vec [1; 2; 3]] [vec [1]]
  = Raise (InhomogeneousShape [2%nat]) /\
  ~ (exists e,
        pairwise_correlation [vec [1]; vec [1; 2; 3]] [vec [1]] = Raise e /\
        In 1%nat (reported e) /\ In 3%nat (reported e)).
Proof.
  split; [reflexivity|].
  intros (e & He & H1 & _).
  assert (E : e = InhomogeneousShape [2%nat]).
  { vm_compute in He. congruence. }
  subst e. simpl in H1. destruct H1 as [H1 | []]. discriminate.
Qed.

(** C7, amended.  Neighbourhoods of different flattened lengths always end
    the call in an error, raised by numpy and passed on to the caller, never
    a matrix.  A ragged list is reported by the shape [(N,)] of the list;
    two lists that are each uniform are reported by [np.matmul] with their
    two row lengths. *)
Theorem pairwise_correlation_mismatch_raises (A B : list (ndarray float)) :
  (exists a b, In a (A ++ B) /\ In b (A ++ B) /\
               length (flatten a) <> length (flatten b)) ->
  let ra := map flatten A in
  let rb := map flatten B in
  exists e,
    pairwise_correlation A B = Raise e /\
    ((uniform ra = false /\ e = InhomogeneousShape [length A]) \/
     (uniform ra = true /\ uniform rb = false /\
      e = InhomogeneousShape [length B]) \/
     (uniform ra = true /\ uniform rb = true /\ ncols ra <> ncols rb /\
      e = MatmulMismatch (ncols ra) (ncols rb))).
Proof.
  intros (a & b & Ha & Hb & Hab) ra rb.
  unfold pairwise_correlation. fold ra rb.
  rewrite !np_array_uniform.
  assert (Hla : length ra = length A) by apply length_map.
  assert (Hlb : length rb = length B) by apply length_map.
  destruct (uniform ra) eqn:Ua.
  2:{ eexists. split; [reflexivity|]. left. rewrite Hla. auto. }
  destruct (uniform rb) eqn:Ub.
  2:{ eexists. split; [reflexivity|]. right. left. rewrite Hlb. auto. }
  assert (HA : forall x, In x A -> length (flatten x) = ncols ra).
  { intros x Hx. apply (uniform_ncols ra Ua). apply in_map. exact Hx. }
  assert (HB : forall x, In x B -> length (flatten x) = ncols rb).
  { intros x Hx. apply (uniform_ncols rb Ub). apply in_map. exact Hx. }
  assert (Hne : ra <> [] /\ rb <> [] /\ ncols ra <> ncols rb).
  { apply in_app_or in Ha. apply in_app_or in Hb.
    destruct Ha as [Ha | Ha], Hb as [Hb | Hb].
    - rewrite (HA a Ha), (HA b Hb) in Hab. congruence.
    - rewrite (HA a Ha), (HB b Hb) in Hab.
      repeat split; auto; intros E.
      + apply (in_map flatten) in Ha. fold ra in Ha. rewrite E in Ha. exact Ha.
      + apply (in_map flatten) in Hb. fold rb in Hb. rewrite E in Hb. exact Hb.
    - rewrite (HB a Ha), (HA b Hb) in Hab.
      repeat split; auto; intros E.
      + apply (in_map flatten) in Hb. fold ra in Hb. rewrite E in Hb. exact Hb.
      + apply (in_map flatten) in Ha. fold rb in Ha. rewrite E in Ha. exact Ha.
    - rewrite (HB a Ha), (HB b Hb) in Hab. congruence. }
  destruct Hne as (Hra & Hrb & Hcols).
  clearbody ra rb. simpl.
  rewrite (stats_rows ra Hra), (stats_rows rb Hrb). simpl.
  rewrite !center_rows. unfold matmul_T. rewrite !ncols_centered.
  apply Nat.eqb_neq in Hcols. rewrite Hcols. simpl.
  eexists. split; [reflexivity|]. right. right.
  apply Nat.eqb_neq in Hcols. auto.
Qed.

Lemma pairwise_correlation_mismatch_raises_witness :
  exists e,
    pairwise_correlation [vec [1; 2; 4]; vec [3; 2; 1]] [vec [1; 2]; vec [7; 7]]
    = Raise e /\
    ((uniform (map flatten [vec [1; 2; 4]; vec [3; 2; 1]]) = false /\
      e = InhomogeneousShape [length [vec [1; 2; 4]; vec [3; 2; 1]]]) \/
     (uniform (map flatten [vec [1; 2; 4]; vec [3; 2; 1]]) = true /\
      uniform (map flatten [vec [1; 2]; vec [7; 7]]) = false /\
      e = InhomogeneousShape [length [vec [1; 2]; vec [7; 7]]]) \/
     (uniform (map flatten [vec [1; 2; 4]; vec [3; 2; 1]]) = true /\
      uniform (map flatten [vec [1; 2]; vec [7; 7]]) = true /\
      ncols (map flatten [vec [1; 2; 4]; vec [3; 2; 1]]) <>
      ncols (map flatten [vec [1; 2]; vec [7; 7]]) /\
      e = MatmulMismatch (ncols (map flatten [vec [1; 2; 4]; vec [3; 2; 1]]))
            (ncols (map flatten [vec [1; 2]; vec [7; 7]])))).
Proof.
  apply (pairwise_correlation_mismatch_raises
           [vec [1; 2; 4]; vec [3; 2; 1]] [vec [1; 2]; vec [7; 7]]).
  exists (vec [1; 2; 4]), (vec [1; 2]).
  split; [left; reflexivity|].
  split; [right; right; left; reflexivity|].
  simpl. discriminate.
Defined.

End CorrelationFacts.

(** * Further properties of match_points *)

Module MatchingMore.

Import Matching MatchingFacts.

Open Scope Q_scope.


Lemma mapM_nth {A B : Type} (f : A -> result B) (l : list A) (l' : list B) :
  mapM f l = Ok l' ->
  forall i x, nth_error l i = Some x ->
    exists y, nth_error l' i = Some y /\ f x = Ok y.
Proof.
  intros H. apply mapM_Forall2 in H.
  induction H as [|a b t t' Hab _ IH]; intros i x Hi.
  - destruct i; discriminate.
  - destruct i; simpl in *.
    + injection Hi as <-. eauto.
    + eauto.
Qed.

(** The scan of [np.argmax]: the candidate [b] at index [bi] is replaced
    only by a strictly larger entry, so the result is the first
    maximum. *)
Lemma argmax_from_spec : forall (l : list Q) (i bi : nat) (b : Q),
  (bi < i)%nat ->
  let j := argmax_from i bi b l in
  exists v,
    ((j = bi /\ v = b) \/
     ((i <= j)%nat /\ nth_error l (j - i) = Some v /\ b < v)) /\
    b <= v /\
    (forall k x, nth_error l k = Some x -> x <= v) /\
    (forall k x, (i + k < j)%nat -> nth_error l k = Some x -> x < v).
Proof.
  induction l as [|x t IH]; intros i bi b Hbi; simpl.
  - exists b. split; [left; auto|]. split; [lra|].
    split; intros k y; destruct k; try discriminate; intros; lia.
  - destruct (Qltb b x) eqn:E.
    + apply Qltb_lt in E.
      destruct (IH (S i) i x (Nat.lt_succ_diag_r i)) as (v & Hj & Hxv & Hall & Hbef).
      exists v. split; [|split; [lra|split]].
      * right. destruct Hj as [[Hj ->] | (Hle & Hn & Hlt)].
        -- rewrite Hj, Nat.sub_diag. simpl. repeat split; auto.
        -- split; [lia|].
           replace (argmax_from (S i) i x t - i)%nat
             with (S (argmax_from (S i) i x t - S i)) by lia.
           simpl. split; [exact Hn | lra].
      * intros [|k] y Hy; simpl in Hy; [injection Hy as <-; exact Hxv | eauto].
      * intros [|k] y Hk Hy; simpl in Hy.
        -- injection Hy as <-.
           destruct Hj as [[Hj _] | (_ & _ & Hlt)]; [lia | exact Hlt].
        -- apply (Hbef k y); [lia | exact Hy].
    + assert (Hxb : x <= b).
      { destruct (Qlt_le_dec b x) as [H|H]; [|exact H].
        apply Qltb_lt in H. congruence. }
      assert (Hbi' : (bi < S i)%nat) by lia.
      destruct (IH (S i) bi b Hbi') as (v & Hj & Hbv & Hall & Hbef).
      exists v. split; [|split; [exact Hbv|split]].
      * destruct Hj as [[Hj ->] | (Hle & Hn & Hlt)]; [left; auto|].
        right. split; [lia|].
        replace (argmax_from (S i) bi b t - i)%nat
          with (S (argmax_from (S i) bi b t - S i)) by lia.
        simpl. auto.
      * intros [|k] y Hy; simpl in Hy; [injection Hy as <-; lra | eauto].
      * intros [|k] y Hk Hy; simpl in Hy.
        -- injection Hy as <-.
           destruct Hj as [[Hj _] | (_ & _ & Hlt)]; [lia | lra].
        -- apply (Hbef k y); [lia | exact Hy].
Qed.

Lemma argmax_first_max (row : list Q) (j : nat) :
  argmax row = Ok j ->
  (j < length row)%nat /\
  (forall k x, nth_error row k = Some x -> x <= nth j row 0) /\
  (forall k x, (k < j)%nat -> nth_error row k = Some x -> x < nth j row 0).
Proof.
  destruct row as [|x t]; unfold argmax; [discriminate|].
  intros H. injection H as <-.
  destruct (argmax_from_spec t 1 0 x Nat.lt_0_1) as (v & Hj & Hxv & Hall & Hbef).
  cbv zeta in *.
  set (j := argmax_from 1 0 x t) in *.
  assert (Hv : (j < S (length t))%nat /\ nth j (x :: t) 0 = v).
  { destruct Hj as [[-> ->] | (Hle & Hn & _)].
    - split; [lia | reflexivity].
    - split.
      + assert (Hs : nth_error t (j - 1) <> None) by congruence.
        apply nth_error_Some in Hs. lia.
      + destruct j as [|j']; [lia|]. simpl.
        replace (S j' - 1)%nat with j' in Hn by lia.
        apply nth_error_nth. exact Hn. }
  destruct Hv as [Hlt Hv]. rewrite Hv.
  split; [exact Hlt|]. split.
  - intros [|k] y Hy; simpl in Hy; [injection Hy as <-; exact Hxv | eauto].
  - intros [|k] y Hk Hy; simpl in Hy.
    + injection Hy as <-.
      destruct Hj as [[Hj _] | (_ & _ & Hlt')]; [lia | exact Hlt'].
    + apply (Hbef k y); [lia | exact Hy].
Qed.




Lemma best_indcs_nth (scores : matrix) (best : list nat) (i : nat) (row : list Q) :
  best_indcs scores = Ok best -> nth_error scores i = Some row ->
  argmax row = Ok (nth i best 0%nat).
Proof.
  intros Hb Hr. destruct (mapM_nth _ _ _ Hb _ _ Hr) as (j & Hj & Ha).
  rewrite (nth_error_nth _ _ 0%nat Hj). exact Ha.
Qed.

(** The B-point paired with A-point [i] is the first column at which row
    [i] of the (gated) scores is largest: no entry of the row is above it,
    and every entry before it is strictly below (lines 226-231). *)
Theorem match_points_first_maximum a_pos b_pos scores threshold max_distance ma mb :
  match_points a_pos b_pos scores threshold max_distance = Ok (ma, mb) ->
  exists scores' threshold' best,
    gate a_pos b_pos scores threshold max_distance = Ok (scores', threshold') /\
    let rows := kept_rows 0 (keeps scores' best threshold') in
    mb = map (fun i => firstn 3 (nth (nth i best 0%nat) b_pos [])) rows /\
    forall i row, nth_error scores' i = Some row ->
      let j := nth i best 0%nat in
      (j < length row)%nat /\
      (forall k x, nth_error row k = Some x -> x <= nth j row 0) /\
      (forall k x, (k < j)%nat -> nth_error row k = Some x -> x < nth j row 0).
Proof.
  intros H.
  destruct (match_points_inv _ _ _ _ _ _ _ H)
    as (s' & t' & best & Hg & Hb & Hl & Hlb & Hma & Hmb).
  exists s', t', best. split; [exact Hg|]. split; [exact Hmb|].
  intros i row Hr. apply argmax_first_max. eapply best_indcs_nth; eauto.
Qed.

Lemma match_points_first_maximum_witness :
  exists scores' threshold' best,
    gate [[0;0;0]] [[0;0;5]; [0;0;6]; [0;0;7]] [[7#10; 9#10; 9#10]] (1#2) None
    = Ok (scores', threshold') /\
    let rows := kept_rows 0 (keeps scores' best threshold') in
    [[0;0;6]] =
    map (fun i => firstn 3 (nth (nth i best 0%nat) [[0;0;5]; [0;0;6]; [0;0;7]] []))
      rows /\
    forall i row, nth_error scores' i = Some row ->
      let j := nth i best 0%nat in
      (j < length row)%nat /\
      (forall k x, nth_error row k = Some x -> x <= nth j row 0) /\
      (forall k x, (k < j)%nat -> nth_error row k = Some x -> x < nth j row 0).
Proof.
  apply (match_points_first_maximum
           [[0;0;0]] [[0;0;5]; [0;0;6]; [0;0;7]] [[7#10; 9#10; 9#10]] (1#2) None
           [[0;0;0]] [[0;0;6]]).
  reflexivity.
Defined.



Lemma Qsqr_nonneg (z : Q) : 0 <= z * z.
Proof.
  destruct (Qlt_le_dec z 0) as [H|H].
  - setoid_replace (z * z) with ((- z) * (- z)) by ring.
    apply Qmult_le_0_compat; lra.
  - apply Qmult_le_0_compat; lra.
Qed.

Lemma Qsqr_far (r d : Q) : 0 <= r -> (r < d \/ r < - d) -> r * r < d * d.
Proof.
  intros Hr [H|H].
  - apply Qmult_lt_compat_nonneg; split; assumption.
  - setoid_replace (d * d) with ((- d) * (- d)) by ring.
    apply Qmult_lt_compat_nonneg; split; assumption.
Qed.

Lemma sqdist_nonneg : forall a b : point, 0 <= sqdist a b.
Proof.
  induction a as [|x a IH]; intros [|y b]; simpl; try lra.
  specialize (IH b). pose proof (Qsqr_nonneg (x - y)). lra.
Qed.

Lemma sqdist_column : forall (a b : point) (k : nat) (x y : Q),
  nth_error a k = Some x -> nth_error b k = Some y ->
  (x - y) * (x - y) <= sqdist a b.
Proof.
  induction a as [|x0 a IH]; intros [|y0 b] [|k] x y Ha Hb; simpl in *;
    try discriminate.
  - injection Ha as <-. injection Hb as <-.
    pose proof (sqdist_nonneg a b). lra.
  - specialize (IH b k x y Ha Hb). pose proof (Qsqr_nonneg (x0 - y0)). lra.
Qed.

(** The distance of the gate is taken over every column of the rows of
    [a_pos] and [b_pos], the columns after the third included (the
    intensity column of blob_detection).  For an integer [max_distance]
    [r >= 0] and two points with integer entries [x] and [y] of size at most
    2^25 in some column (so that the differences and squares of the
    comparison are exact in float64): if [x] and [y] differ by more than [r]
    the pair is not in range, and its score is left as it was (lines
    217-222). *)
Theorem gate_uses_all_columns a_pos b_pos scores threshold (r : Z)
  scores' threshold' i j a b k (x y : Z) row s :
  gate a_pos b_pos scores threshold (Some (inject_Z r)) = Ok (scores', threshold') ->
  nth_error a_pos i = Some a -> nth_error b_pos j = Some b ->
  nth_error a k = Some (inject_Z x) -> nth_error b k = Some (inject_Z y) ->
  (Z.abs x <= 2 ^ 25)%Z -> (Z.abs y <= 2 ^ 25)%Z ->
  (0 <= r < Z.abs (x - y))%Z ->
  nth_error scores i = Some row -> nth_error row j = Some s ->
  ~ in_range (inject_Z r) a_pos b_pos i j /\
  exists row', nth_error scores' i = Some row' /\ nth_error row' j = Some s.
Proof.
  intros Hg Ha Hb Hx Hy _ _ Hfar Hr Hs.
  assert (Hout : ~ in_range (inject_Z r) a_pos b_pos i j).
  { intros (a' & b' & Ha' & Hb' & W).
    assert (a' = a) by congruence. assert (b' = b) by congruence. subst.
    unfold within in W. apply Qle_bool_iff in W.
    pose proof (sqdist_column a b k _ _ Hx Hy) as Hc.
    assert (Hsq : inject_Z r * inject_Z r <
                  (inject_Z x - inject_Z y) * (inject_Z x - inject_Z y)).
    { apply Qsqr_far.
      - change 0 with (inject_Z 0). rewrite <- Zle_Qle. lia.
      - unfold Qminus. rewrite <- inject_Z_opp, <- inject_Z_plus.
        rewrite <- inject_Z_opp, <- !Zlt_Qlt. lia. }
    lra. }
  split; [exact Hout|].
  assert (Hi : (i < length a_pos)%nat).
  { apply nth_error_Some. congruence. }
  destruct (gate_entry _ _ _ _ _ _ _ _ _ _ _ Hg Hi Hr Hs)
    as (m & row' & s' & _ & _ & _ & Hr' & Hs' & _ & Hsame).
  exists row'. split; [exact Hr'|]. rewrite Hs'. f_equal. auto.
Qed.

Lemma gate_uses_all_columns_witness :
  ~ in_range (inject_Z 10) [[0;0;0;100]] [[0;0;0;250]] 0 0 /\
  exists row',
    nth_error [[9#10]] 0 = Some row' /\ nth_error row' 0 = Some (9#10).
Proof.
  apply (gate_uses_all_columns [[0;0;0;100]] [[0;0;0;250]] [[9#10]] (1#2) 10
           [[9#10]] ((1#2) + ((9#10) + 1)) 0 0 [0;0;0;100] [0;0;0;250] 3 100 250
           [9#10] (9#10)); try reflexivity.
  - simpl. lia.
  - simpl. lia.
  - simpl. lia.
Defined.

Lemma mapM_In {A B : Type} (f : A -> result B) (l : list A) (l' : list B) (x : A) :
  mapM f l = Ok l' -> In x l -> exists y, f x = Ok y.
Proof.
  intros H Hx. apply In_nth_error in Hx. destruct Hx as [i Hi].
  destruct (mapM_nth _ _ _ H _ _ Hi) as (y & _ & Hy). eauto.
Qed.

Lemma mapM_take_rows (f : nat -> result point) (g : nat -> point) (rows : list nat) :
  (forall i, In i rows -> exists y, f i = Ok y) ->
  (forall i y, f i = Ok y -> y = g i) ->
  mapM f rows = Ok (map g rows).
Proof.
  intros Hok Hg. induction rows as [|i t IH]; simpl; [reflexivity|].
  destruct (Hok i (or_introl eq_refl)) as [y Hy].
  rewrite Hy, <- (Hg i y Hy). simpl.
  rewrite IH by (intros j Hj; apply Hok; right; exact Hj). reflexivity.
Qed.

(** The gate adds one offset to the threshold, whatever the threshold. *)
Lemma gate_threshold a_pos b_pos scores t1 t2 max_distance scores' t1' :
  gate a_pos b_pos scores t1 max_distance = Ok (scores', t1') ->
  exists t2', gate a_pos b_pos scores t2 max_distance = Ok (scores', t2') /\
              t2' - t2 == t1' - t1.
Proof.
  unfold gate. intros H.
  destruct (np_max scores) as [m|e]; simpl in *; [|discriminate].
  destruct max_distance as [r|].
  - destruct (query_ball_tree a_pos b_pos r) as [vp|e]; simpl in *; [|discriminate].
    destruct (boost_rows vp (m + 1) scores) as [sc|e]; simpl in *; [|discriminate].
    injection H as <- <-. eexists. split; [reflexivity | ring].
  - injection H as <- <-. eexists. split; [reflexivity | ring].
Qed.

Lemma keeps_antitone (scores : matrix) (best : list nat) (t1 t2 : Q) (k : nat) :
  t1 <= t2 ->
  nth_error (keeps scores best t2) k = Some true ->
  nth_error (keeps scores best t1) k = Some true.
Proof.
  unfold keeps. intros Ht. rewrite !nth_error_map.
  destruct (nth_error (combine scores best) k) as [[row j]|]; simpl; [|discriminate].
  intros H. injection H as H. apply Qltb_lt in H. f_equal. apply Qltb_lt. lra.
Qed.

(** Raising the threshold only removes pairs: a call that returns at
    [t1] also returns at every [t2 >= t1], and its output is the output at
    [t1] restricted to a subset of the rows, each row keeping its partner
    (lines 226-231). *)
Theorem match_points_threshold_monotone a_pos b_pos scores t1 t2 max_distance
  ma1 mb1 :
  match_points a_pos b_pos scores t1 max_distance = Ok (ma1, mb1) ->
  t1 <= t2 ->
  exists ma2 mb2 best rows1 rows2,
    match_points a_pos b_pos scores t2 max_distance = Ok (ma2, mb2) /\
    incl rows2 rows1 /\
    ma1 = map (fun i => firstn 3 (nth i a_pos [])) rows1 /\
    mb1 = map (fun i => firstn 3 (nth (nth i best 0%nat) b_pos [])) rows1 /\
    ma2 = map (fun i => firstn 3 (nth i a_pos [])) rows2 /\
    mb2 = map (fun i => firstn 3 (nth (nth i best 0%nat) b_pos [])) rows2.
Proof.
  intros H Ht. pose proof H as H0. unfold match_points in H.
  destruct (gate a_pos b_pos scores t1 max_distance) as [[s' t1']|e] eqn:Eg;
    simpl in H; [|discriminate].
  destruct (best_indcs s') as [best|e] eqn:Eb; simpl in H; [|discriminate].
  destruct (Nat.eqb (length s') (length a_pos)) eqn:El; simpl in H; [|discriminate].
  destruct (mapM (take_row a_pos) (kept_rows 0 (keeps s' best t1')))
    as [xa|e] eqn:Ea; simpl in H; [|discriminate].
  destruct (mapM (fun i => take_row b_pos (nth i best 0%nat))
              (kept_rows 0 (keeps s' best t1'))) as [xb|e] eqn:Exb;
    simpl in H; [|discriminate].
  injection H as <- <-.
  destruct (gate_threshold _ _ _ _ t2 _ _ _ Eg) as (t2' & Eg2 & Hd).
  assert (Ht' : t1' <= t2') by lra.
  set (rows1 := kept_rows 0 (keeps s' best t1')) in *.
  set (rows2 := kept_rows 0 (keeps s' best t2')).
  assert (Hincl : incl rows2 rows1).
  { intros i Hi. apply kept_rows_In in Hi. destruct Hi as (k & -> & Hk).
    apply kept_rows_In. exists k. split; [reflexivity|].
    eapply keeps_antitone; eauto. }
  assert (Ha2 : mapM (take_row a_pos) rows2 =
                Ok (map (fun i => firstn 3 (nth i a_pos [])) rows2)).
  { apply mapM_take_rows.
    - intros i Hi. eapply mapM_In; [exact Ea | apply Hincl; exact Hi].
    - intros i y Hy. apply take_row_Ok in Hy. tauto. }
  assert (Hb2 : mapM (fun i => take_row b_pos (nth i best 0%nat)) rows2 =
                Ok (map (fun i => firstn 3 (nth (nth i best 0%nat) b_pos [])) rows2)).
  { apply mapM_take_rows.
    - intros i Hi.
      apply (mapM_In (fun i => take_row b_pos (nth i best 0%nat)) rows1 xb i Exb).
      apply Hincl. exact Hi.
    - intros i y Hy. apply take_row_Ok in Hy. tauto. }
  destruct (match_points_inv _ _ _ _ _ _ _ H0)
    as (s0 & t0 & best0 & Hg0 & Hb0 & _ & _ & Hma & Hmb).
  assert (s0 = s' /\ t0 = t1') by (split; congruence).
  destruct H as [-> ->].
  assert (best0 = best) by congruence. subst best0.
  exists (map (fun i => firstn 3 (nth i a_pos [])) rows2),
    (map (fun i => firstn 3 (nth (nth i best 0%nat) b_pos [])) rows2),
    best, rows1, rows2.
  split.
  - unfold match_points. rewrite Eg2. simpl. rewrite Eb. simpl. rewrite El. simpl.
    fold rows2. rewrite Ha2. simpl. rewrite Hb2. reflexivity.
  - repeat split; auto.
Qed.

Lemma match_points_threshold_monotone_witness :
  exists ma2 mb2 best rows1 rows2,
    match_points [[0;0;0]; [1;1;1]] [[0;0;5]] [[9#10]; [8#10]] (85#100) None
    = Ok (ma2, mb2) /\
    incl rows2 rows1 /\
    [[0;0;0]; [1;1;1]] = map (fun i => firstn 3 (nth i [[0;0;0]; [1;1;1]] [])) rows1 /\
    [[0;0;5]; [0;0;5]] =
    map (fun i => firstn 3 (nth (nth i best 0%nat) [[0;0;5]] [])) rows1 /\
    ma2 = map (fun i => firstn 3 (nth i [[0;0;0]; [1;1;1]] [])) rows2 /\
    mb2 = map (fun i => firstn 3 (nth (nth i best 0%nat) [[0;0;5]] [])) rows2.
Proof.
  apply (match_points_threshold_monotone [[0;0;0]; [1;1;1]] [[0;0;5]]
           [[9#10]; [8#10]] (1#2) (85#100) None).
  - reflexivity.
  - discriminate.
Defined.




End MatchingMore.

(** * Further properties of get_contexts *)

Module ContextsMore.

Import Contexts ContextsFacts.

Section Edges.

Context {T : Type}.

Local Open Scope Z_scope.

Lemma crop_of_length (coord rs : list Z) :
  (length (crop_of coord rs) <= length rs)%nat.
Proof. unfold crop_of. rewrite length_map, length_combine. lia. Qed.


(** The same for the entry of one coordinate, without the bounds: used
    below at coordinates that are given. *)
Lemma get_contexts_scalar_map (image : ndarray T) (coords : list (list Z))
  (r : Z) :
  get_contexts image coords (RInt r) =
  Ok (map (fun coord => getitem (crop_of coord (repeat r (ndim image))) image)
        coords).
Proof.
  unfold get_contexts. simpl. apply mapM_total.
  intros coord _. unfold image_getitem.
  assert (H : (length (crop_of coord (repeat r (ndim image))) <= ndim image)%nat).
  { pose proof (crop_of_length coord (repeat r (ndim image))) as H.
    rewrite repeat_length in H. exact H. }
  apply Nat.leb_le in H. rewrite H. reflexivity.
Qed.

Lemma mapM_first_error {A B : Type} (f : A -> result B) (e : exn) (l : list A) :
  (forall x, In x l -> f x = Raise e \/ exists y, f x = Ok y) ->
  (exists x, In x l /\ f x = Raise e) ->
  mapM f l = Raise e.
Proof.
  induction l as [|a t IH]; intros Hall (x & Hx & Hf); [destruct Hx|].
  simpl. destruct (Hall a (or_introl eq_refl)) as [Ha | [y Ha]]; rewrite Ha; simpl.
  - reflexivity.
  - destruct Hx as [<- | Hx]; [congruence|].
    rewrite IH; [reflexivity | | eauto].
    intros z Hz. apply Hall. right. exact Hz.
Qed.

(** A radius tuple with more entries than the image has axes makes the
    call raise IndexError as soon as one coordinate has that many entries
    too (lines 129-131). *)
Theorem get_contexts_radius_too_long (image : ndarray T) (coords : list (list Z))
  (rs coord : list Z) :
  In coord coords ->
  (ndim image < length rs)%nat -> (ndim image < length coord)%nat ->
  get_contexts image coords (RTuple rs) = Raise IndexError.
Proof.
  intros Hin Hrs Hc. unfold get_contexts. simpl.
  apply mapM_first_error.
  - intros x _. unfold image_getitem.
    destruct (Nat.leb _ _); [right; eauto | left; reflexivity].
  - exists coord. split; [exact Hin|]. unfold image_getitem.
    assert (H : Nat.leb (length (crop_of coord rs)) (ndim image) = false).
    { apply Nat.leb_gt. unfold crop_of. rewrite length_map, length_combine. lia. }
    rewrite H. reflexivity.
Qed.

Lemma py_slice_lower {A : Type} (l : list A) (c r : Z) :
  0 <= c < r -> 2 * r + 1 <= Z.of_nat (length l) ->
  py_slice (c - r) (c + r + 1) l = [].
Proof.
  intros Hc Hn. unfold py_slice, clip.
  destruct (c - r <? 0) eqn:E1; [|apply Z.ltb_ge in E1; lia].
  destruct (c + r + 1 <? 0) eqn:E2; [apply Z.ltb_lt in E2; lia|].
  rewrite Z.max_l, Z.min_l by lia.
  replace (Z.to_nat (c + r + 1 - (c - r + Z.of_nat (length l)))) with 0%nat by lia.
  reflexivity.
Qed.


Lemma radius_of_array (xs : list (ndarray T)) (r : Z) :
  exists rs, repeat r (ndim (Array xs)) = r :: rs.
Proof. destruct xs as [|x t]; simpl; eexists; reflexivity. Qed.

(** No clamping at the lower edge: a coordinate [c] with [0 <= c < r] on
    the first axis starts its slice at the negative index [c - r], which
    Python counts from the far end; when the axis has at least [2r + 1]
    entries the neighbourhood is empty, not truncated (lines 129-131). *)
Theorem get_contexts_lower_edge (xs : list (ndarray T)) (coords : list (list Z))
  (r : Z) (i : nat) (c : Z) (cs : list Z) :
  nth_error coords i = Some (c :: cs) ->
  0 <= c < r -> 2 * r + 1 <= Z.of_nat (length xs) ->
  exists nbhds,
    get_contexts (Array xs) coords (RInt r) = Ok nbhds /\
    nth_error nbhds i = Some (Array []).
Proof.
  intros Hi Hc Hn. rewrite get_contexts_scalar_map.
  eexists. split; [reflexivity|].
  rewrite nth_error_map, Hi. simpl. f_equal.
  destruct (radius_of_array xs r) as [rs Hrs].
  change (match xs with [] => 1%nat | x :: _ => S (ndim x) end)
    with (ndim (Array xs)).
  rewrite Hrs. unfold crop_of. simpl.
  rewrite py_slice_lower by assumption. reflexivity.
Qed.


Lemma combine_firstn_l {A B : Type} : forall (l : list A) (l' : list B),
  combine (firstn (length l') l) l' = combine l l'.
Proof.
  induction l as [|a t IH]; intros [|b t']; simpl; try reflexivity.
  f_equal. apply IH.
Qed.

Lemma mapM_map_in {A B C : Type} (f : B -> result C) (g : A -> B) (l : list A) :
  mapM f (map g l) = mapM (fun x => f (g x)) l.
Proof. induction l as [|a t IH]; simpl; [reflexivity | rewrite IH; reflexivity]. Qed.

Lemma mapM_ext {A B : Type} (f g : A -> result B) (l : list A) :
  (forall x, f x = g x) -> mapM f l = mapM g l.
Proof.
  intros H. induction l as [|a t IH]; simpl; [reflexivity|].
  rewrite H, IH. reflexivity.
Qed.

(** Only as many entries of a coordinate row as the radius has axes are
    read: further columns, such as the intensity that blob_detection
    appends, do not change the result (line 130, [zip]). *)
Theorem get_contexts_ignores_extra_columns (image : ndarray T)
  (coords : list (list Z)) (radius : radius_arg) :
  get_contexts image
    (map (firstn (length (radius_tuple radius image))) coords) radius =
  get_contexts image coords radius.
Proof.
  unfold get_contexts. rewrite mapM_map_in. apply mapM_ext.
  intros coord. unfold crop_of. rewrite combine_firstn_l. reflexivity.
Qed.

End Edges.

Local Open Scope Z_scope.


Lemma get_contexts_radius_too_long_witness :
  get_contexts (Array (map Scalar [10;11;12;13;14;15;16;17;18;19]%Z))
    [[4;5]%Z] (RTuple [2;1]%Z) = Raise IndexError.
Proof.
  apply (@get_contexts_radius_too_long Z
           (Array (map Scalar [10;11;12;13;14;15;16;17;18;19]%Z))
           [[4;5]%Z] [2;1]%Z [4;5]%Z).
  - left. reflexivity.
  - simpl. lia.
  - simpl. lia.
Defined.

Lemma get_contexts_lower_edge_witness :
  exists nbhds,
    get_contexts (Array (map Scalar [10;11;12;13;14;15;16;17;18;19]))
      [[4]; [1]] (RInt 2) = Ok nbhds /\
    nth_error nbhds 1 = Some (Array []).
Proof.
  apply (@get_contexts_lower_edge Z
           (map Scalar [10;11;12;13;14;15;16;17;18;19]) [[4]; [1]] 2 1%nat 1 []).
  - reflexivity.
  - lia.
  - simpl. lia.
Defined.


End ContextsMore.

(** * Further properties of pairwise_correlation *)

Module CorrelationMore.

Import Contexts Correlation CorrelationFacts.

Local Open Scope float_scope.

Lemma pairwise_correlation_no_nan_witness :
  Forall (Forall (fun c => PrimFloat.is_nan c = false)) [[0; 0]].
Proof.
  apply (pairwise_correlation_no_nan
           [vec [5; 5; 5]] [vec [1; 2; 3]; vec [5; 5; 5]] [[0; 0]]).
  reflexivity.
Defined.

Lemma stats_empty : _stats [] = Raise (AxisError [0%nat]).
Proof. reflexivity. Qed.

(** The call returns a matrix exactly when both lists are non-empty and
    all their neighbourhoods flatten to one length; in every other case it
    ends in an exception (lines 170-188). *)
Theorem pairwise_correlation_returns_iff (A B : list (ndarray float)) :
  (exists corr, pairwise_correlation A B = Ok corr) <->
  (A <> [] /\ B <> [] /\
   exists L, (forall a, In a A -> length (flatten a) = L) /\
             (forall b, In b B -> length (flatten b) = L)).
Proof.
  split.
  - intros [corr H]. unfold pairwise_correlation in H.
    rewrite !np_array_uniform in H.
    destruct (uniform (map flatten A)) eqn:Ua; [|discriminate H].
    destruct (uniform (map flatten B)) eqn:Ub; [|discriminate H].
    unfold bind at 1 2 in H.
    destruct A as [|a0 A']; [discriminate H|].
    rewrite (stats_rows (map flatten (a0 :: A'))) in H by discriminate.
    unfold bind at 1 in H.
    destruct B as [|b0 B']; [discriminate H|].
    rewrite (stats_rows (map flatten (b0 :: B'))) in H by discriminate.
    unfold bind at 1 in H. rewrite !center_rows in H. unfold matmul_T in H.
    rewrite !ncols_centered in H.
    destruct (Nat.eqb (ncols (map flatten (a0 :: A')))
                (ncols (map flatten (b0 :: B')))) eqn:E; [|discriminate H].
    apply Nat.eqb_eq in E.
    split; [discriminate|]. split; [discriminate|].
    exists (ncols (map flatten (a0 :: A'))). split.
    + intros a Ha. apply (uniform_ncols _ Ua). apply in_map. exact Ha.
    + intros b Hb. rewrite E. apply (uniform_ncols _ Ub). apply in_map. exact Hb.
  - intros (HA & HB & L & HLa & HLb).
    destruct (lengths_stack A L HA HLa) as (Hra & Hua & Hca).
    destruct (lengths_stack B L HB HLb) as (Hrb & Hub & Hcb).
    eexists. apply pairwise_correlation_rows; congruence.
Qed.

Lemma pairwise_correlation_returns_iff_witness :
  exists corr, pairwise_correlation [vec [1; 2; 4]] [vec [3; 2; 1]; vec [0; 0; 1]]
               = Ok corr.
Proof.
  apply (proj2 (pairwise_correlation_returns_iff
                  [vec [1; 2; 4]] [vec [3; 2; 1]; vec [0; 0; 1]])).
  split; [discriminate|]. split; [discriminate|].
  exists 3%nat. split.
  - intros a [<- | []]. reflexivity.
  - intros b [<- | [<- | []]]; reflexivity.
Defined.

(** An empty list of neighbourhoods is an error: when the other list is
    not ragged, the call raises the exception of [np.mean(arr, axis=1)] on
    the 1-d array of shape (0,), which [_stats] logs and raises again
    (lines 138-150). *)
Theorem pairwise_correlation_empty_list (A B : list (ndarray float)) :
  A = [] \/ B = [] ->
  uniform (map flatten A) = true -> uniform (map flatten B) = true ->
  pairwise_correlation A B = Raise (AxisError [0%nat]).
Proof.
  intros Hempty Ua Ub. unfold pairwise_correlation.
  rewrite !np_array_uniform, Ua, Ub. simpl.
  destruct A as [|a0 A'].
  - reflexivity.
  - destruct Hempty as [H | ->]; [discriminate|].
    rewrite (stats_rows (map flatten (a0 :: A'))) by discriminate.
    reflexivity.
Qed.

Lemma pairwise_correlation_empty_list_witness :
  pairwise_correlation [vec [1; 2; 3]; vec [3; 2; 1]] [] = Raise (AxisError [0%nat]).
Proof.
  apply (pairwise_correlation_empty_list [vec [1; 2; 3]; vec [3; 2; 1]] []).
  - right. reflexivity.
  - reflexivity.
  - reflexivity.
Defined.

(** Neighbourhoods without entries, as the lower edge produces them, are
    correlated without an error: every mean is 0/0, every quotient is NaN
    and the matrix returned is all zeros (lines 175-188). *)
Theorem pairwise_correlation_empty_neighbourhoods (A B : list (ndarray float)) :
  A <> [] -> B <> [] ->
  (forall a, In a A -> flatten a = []) ->
  (forall b, In b B -> flatten b = []) ->
  pairwise_correlation A B = Ok (map (fun _ => map (fun _ => 0) B) A).
Proof.
  intros HA HB Ha Hb.
  assert (HLa : forall a, In a A -> length (flatten a) = 0%nat)
    by (intros a H; rewrite (Ha a H); reflexivity).
  assert (HLb : forall b, In b B -> length (flatten b) = 0%nat)
    by (intros b H; rewrite (Hb b H); reflexivity).
  destruct (lengths_stack A 0 HA HLa) as (Hra & Hua & Hca).
  destruct (lengths_stack B 0 HB HLb) as (Hrb & Hub & Hcb).
  rewrite pairwise_correlation_rows by congruence.
  f_equal. rewrite map_map. apply map_ext_in. intros a Hin.
  rewrite map_map. apply map_ext_in. intros b Hinb.
  rewrite (Ha a Hin), (Hb b Hinb). reflexivity.
Qed.

Lemma pairwise_correlation_empty_neighbourhoods_witness :
  pairwise_correlation [Array []; Array []] [Array []] = Ok [[0]; [0]].
Proof.
  apply (pairwise_correlation_empty_neighbourhoods [Array []; Array []] [Array []]).
  - discriminate.
  - discriminate.
  - intros a [<- | [<- | []]]; reflexivity.
  - intros b [<- | []]; reflexivity.
Defined.

Lemma flatten_vec (l : list float) : flatten (vec l) = l.
Proof.
  unfold vec. simpl. rewrite map_map. simpl.
  induction l as [|x t IH]; simpl; [reflexivity | f_equal; exact IH].
Qed.

(** The shape of a neighbourhood plays no part, only its entries in
    row-major order: neighbourhoods of different shapes and one size are
    correlated like the vectors they flatten to (lines 171-172). *)
Theorem pairwise_correlation_ignores_shape (A B : list (ndarray float)) :
  pairwise_correlation A B =
  pairwise_correlation (map (fun a => vec (flatten a)) A)
    (map (fun b => vec (flatten b)) B).
Proof.
  assert (E : forall l : list (ndarray float),
             map flatten (map (fun a => vec (flatten a)) l) = map flatten l).
  { intros l. rewrite map_map. apply map_ext. intros a. apply flatten_vec. }
  unfold pairwise_correlation. rewrite !E. reflexivity.
Qed.

End CorrelationMore.

(** * get_contexts into pairwise_correlation *)

Module Pipeline.

Import Contexts ContextsFacts Correlation CorrelationFacts.

Lemma length_concat_uniform {A : Type} (L : nat) : forall ls : list (list A),
  (forall l, In l ls -> length l = L) -> length (concat ls) = (length ls * L)%nat.
Proof.
  induction ls as [|l t IH]; intros H; simpl; [reflexivity|].
  rewrite length_app, (H l) by (left; reflexivity).
  rewrite IH by (intros l' Hl'; apply H; right; exact Hl'). reflexivity.
Qed.

(** A rectangular array flattens to as many entries as its shape says. *)
Lemma flatten_size {T : Type} : forall (shape : list nat) (a : ndarray T),
  has_shape shape a -> length (flatten a) = size shape.
Proof.
  induction shape as [|n s IH]; intros [x|xs] H; simpl in H;
    try contradiction; [reflexivity|].
  destruct H as [Hn Hall]. simpl.
  rewrite (length_concat_uniform (size s)).
  - rewrite length_map, Hn. reflexivity.
  - intros l Hl. apply in_map_iff in Hl. destruct Hl as (x & <- & Hx).
    apply IH. rewrite Forall_forall in Hall. auto.
Qed.

Lemma window_shape_full : forall (cr : list (Z * Z)) (shape : list nat),
  length cr = length shape ->
  window_shape cr shape = map (fun x => Z.to_nat (2 * snd x + 1)) cr.
Proof.
  induction cr as [|[c r] cr IH]; intros [|n ns] H; simpl in *;
    try discriminate; [reflexivity|].
  f_equal. apply IH. lia.
Qed.

Lemma map_snd_combine {A B C : Type} (f : B -> C) : forall (l : list A) (l' : list B),
  (length l' <= length l)%nat ->
  map (fun x => f (snd x)) (combine l l') = map f l'.
Proof.
  induction l as [|a t IH]; intros [|b t'] H; simpl in *; try reflexivity; [lia|].
  f_equal. apply IH. lia.
Qed.

Lemma get_contexts_tuple_interior {T : Type} (image : ndarray T)
  (shape : list nat) (coords : list (list Z)) (rs : list Z) :
  has_shape shape image -> (length rs <= length shape)%nat ->
  Forall (fun coord => interior (combine coord rs) shape) coords ->
  get_contexts image coords (RTuple rs) =
  Ok (map (fun coord => getitem (crop_of coord rs) image) coords).
Proof.
  intros Hs Hrs Hint. unfold get_contexts. simpl. apply mapM_total.
  intros coord Hc. unfold image_getitem.
  rewrite Forall_forall in Hint.
  assert (Hle : (length (crop_of coord rs) <= ndim image)%nat).
  { unfold crop_of. rewrite length_map.
    eapply interior_le_ndim; eauto. rewrite length_combine. lia. }
  apply Nat.leb_le in Hle. rewrite Hle. reflexivity.
Qed.

Lemma window_flatten_length {T : Type} (image : ndarray T) (shape : list nat)
  (coord rs : list Z) :
  has_shape shape image -> length rs = length shape ->
  (length rs <= length coord)%nat -> interior (combine coord rs) shape ->
  length (flatten (getitem (crop_of coord rs) image)) =
  size (map (fun r => Z.to_nat (2 * r + 1)) rs).
Proof.
  intros Hs Hrs Hc Hint.
  assert (Hcr : length (combine coord rs) = length shape).
  { rewrite length_combine. lia. }
  destruct (getitem_window (combine coord rs) shape image Hs Hint) as [Hw _];
    [lia|].
  cbv zeta in Hw. fold (crop_of coord rs) in Hw.
  rewrite (flatten_size _ _ Hw), (window_shape_full _ _ Hcr).
  rewrite (map_snd_combine (fun r => Z.to_nat (2 * r + 1))) by lia.
  reflexivity.
Qed.

(** The two stages compose: neighbourhoods cut with one radius tuple at
    interior coordinates of two images with as many axes as the tuple all
    have the size [prod (2r + 1)], so the correlation of the two lists never
    raises and is a matrix with one row per coordinate of the first list and
    one column per coordinate of the second (lines 125-132 and 170-188). *)
Theorem interior_contexts_correlate (image_a image_b : ndarray float)
  (shape_a shape_b : list nat) (coords_a coords_b : list (list Z)) (rs : list Z) :
  has_shape shape_a image_a -> has_shape shape_b image_b ->
  length rs = length shape_a -> length rs = length shape_b ->
  coords_a <> [] -> coords_b <> [] ->
  Forall (fun c => (length rs <= length c)%nat /\
                   interior (combine c rs) shape_a) coords_a ->
  Forall (fun c => (length rs <= length c)%nat /\
                   interior (combine c rs) shape_b) coords_b ->
  exists A B corr,
    get_contexts image_a coords_a (RTuple rs) = Ok A /\
    get_contexts image_b coords_b (RTuple rs) = Ok B /\
    (forall w, In w (A ++ B) ->
       length (flatten w) = size (map (fun r => Z.to_nat (2 * r + 1)) rs)) /\
    pairwise_correlation A B = Ok corr /\
    length corr = length coords_a /\
    Forall (fun row => length row = length coords_b) corr.
Proof.
  intros Hsa Hsb Hra Hrb Hna Hnb Hia Hib.
  set (L := size (map (fun r => Z.to_nat (2 * r + 1)) rs)).
  set (A := map (fun coord => getitem (crop_of coord rs) image_a) coords_a).
  set (B := map (fun coord => getitem (crop_of coord rs) image_b) coords_b).
  assert (HA : forall w, In w A -> length (flatten w) = L).
  { intros w Hw. apply in_map_iff in Hw. destruct Hw as (c & <- & Hc).
    rewrite Forall_forall in Hia. destruct (Hia c Hc) as [Hlc Hint].
    apply (window_flatten_length image_a shape_a); auto. }
  assert (HB : forall w, In w B -> length (flatten w) = L).
  { intros w Hw. apply in_map_iff in Hw. destruct Hw as (c & <- & Hc).
    rewrite Forall_forall in Hib. destruct (Hib c Hc) as [Hlc Hint].
    apply (window_flatten_length image_b shape_b); auto. }
  assert (HAne : A <> []) by (subst A; destruct coords_a; [congruence | discriminate]).
  assert (HBne : B <> []) by (subst B; destruct coords_b; [congruence | discriminate]).
  destruct (lengths_stack A L HAne HA) as (Hsa' & Hua & Hca).
  destruct (lengths_stack B L HBne HB) as (Hsb' & Hub & Hcb).
  exists A, B,
    (map (fun x => map (fun y => nan_to_zero (pearson x y)) (map flatten B))
       (map flatten A)).
  split; [|split; [|split; [|split; [|split]]]].
  - apply get_contexts_tuple_interior with (shape := shape_a); auto; [lia|].
    eapply Forall_impl; [|exact Hia]. intros c [_ H]. exact H.
  - apply get_contexts_tuple_interior with (shape := shape_b); auto; [lia|].
    eapply Forall_impl; [|exact Hib]. intros c [_ H]. exact H.
  - intros w Hw. apply in_app_or in Hw. destruct Hw; auto.
  - apply pairwise_correlation_rows; congruence.
  - subst A. rewrite !length_map. reflexivity.
  - apply Forall_forall. intros row Hrow.
    apply in_map_iff in Hrow. destruct Hrow as (x & <- & _).
    subst B. rewrite !length_map. reflexivity.
Qed.

Local Open Scope float_scope.

Lemma interior_contexts_correlate_witness :
  exists A B corr,
    get_contexts (vec [1; 2; 4; 8; 16; 32]) [[1%Z]; [4%Z]] (RTuple [1%Z]) = Ok A /\
    get_contexts (vec [3; 1; 4; 1; 5]) [[2%Z]] (RTuple [1%Z]) = Ok B /\
    (forall w, In w (A ++ B) ->
       length (flatten w) = size (map (fun r => Z.to_nat (2 * r + 1)) [1%Z])) /\
    pairwise_correlation A B = Ok corr /\
    length corr = 2%nat /\
    Forall (fun row => length row = 1%nat) corr.
Proof.
  apply (interior_contexts_correlate
           (vec [1; 2; 4; 8; 16; 32]) (vec [3; 1; 4; 1; 5])
           [6%nat] [5%nat] [[1%Z]; [4%Z]] [[2%Z]] [1%Z]).
  - simpl. split; [reflexivity|]. repeat constructor.
  - simpl. split; [reflexivity|]. repeat constructor.
  - reflexivity.
  - reflexivity.
  - discriminate.
  - discriminate.
  - repeat constructor; simpl; lia.
  - repeat constructor; simpl; lia.
Defined.

End Pipeline.
